(** * Book translation pipeline: chunker, provider adapters, orchestrator, queue

    A shallow embedding of the translation job pipeline of the
    book-translation server:

    - [server/src/utils/fileProcessing.js]  ([extractText], [splitIntoChunks],
      [splitLongSentence]),
    - the provider adapters [deepl.js], [microsoft.js], [amazon.js],
      [libre.js], [argos.js] ([mapLanguageCode], Argos [translate]),
    - [server/src/models/Translation.js] (the job record and its methods),
    - [server/src/services/translationService.js] ([processTranslation]),
    - [server/src/controllers/translationController.js] ([cancelTranslation]),
    - [server/src/services/queueService.js] (the queue options and processor).

    JavaScript strings are sequences of UTF-16 code units; they are modelled
    as lists of code units, so that [length] is the JavaScript [.length]. *)

From Stdlib Require Import List NArith ZArith Bool Lia String Ascii.
From Equations Require Import Equations.
From stdpp Require Import gmap.
Import ListNotations.

Set Default Proof Using "Type".

(** ** JavaScript strings *)

Definition char := N.
Definition jsstring := list char.

(** [str "abc"] is the JavaScript string literal ['abc'] (ASCII only). *)
Definition str (s : string) : jsstring :=
  List.map N_of_ascii (list_ascii_of_string s).

Arguments str : simpl never.

(** A JavaScript string is truthy exactly when it is not empty. *)
Definition truthy (s : jsstring) : bool :=
  match s with [] => false | _ :: _ => true end.

(** The character class [\s] of ECMAScript regular expressions:
    WhiteSpace and LineTerminator code points. *)
Definition is_space (c : char) : bool :=
  ((c =? 9) || (c =? 10) || (c =? 11) || (c =? 12) || (c =? 13) || (c =? 32)
   || (c =? 160) || (c =? 5760) || ((8192 <=? c) && (c <=? 8202))
   || (c =? 8232) || (c =? 8233) || (c =? 8239) || (c =? 8287)
   || (c =? 12288) || (c =? 65279))%N.

(** The character class [[.!?]]. *)
Definition is_terminal (c : char) : bool :=
  ((c =? 46) || (c =? 33) || (c =? 63))%N.

(** [String.prototype.toLowerCase] and [toUpperCase], on the ASCII letters
    (language codes are ASCII; other code units are left as they are). *)
Definition lower_char (c : char) : char :=
  (if (65 <=? c) && (c <=? 90) then c + 32 else c)%N.
Definition upper_char (c : char) : char :=
  (if (97 <=? c) && (c <=? 122) then c - 32 else c)%N.
Definition toLowerCase (s : jsstring) : jsstring := List.map lower_char s.
Definition toUpperCase (s : jsstring) : jsstring := List.map upper_char s.

(** [String.prototype.includes]: [needle] occurs in [s] as a substring. *)
Fixpoint starts_with (needle s : jsstring) : bool :=
  match needle, s with
  | [], _ => true
  | _ :: _, [] => false
  | a :: needle', b :: s' => (a =? b)%N && starts_with needle' s'
  end.
Fixpoint includes (s needle : jsstring) : bool :=
  starts_with needle s ||
  match s with
  | [] => false
  | _ :: s' => includes s' needle
  end.

(** A loop keeps what each of its rounds keeps. *)
Lemma fold_left_invariant {A B} (f : A -> B -> A) (I : A -> Prop) l :
  (forall a b, In b l -> I a -> I (f a b)) ->
  forall a, I a -> I (fold_left f l a).
Proof.
  induction l as [|b l IH]; intros Hstep a Ha; simpl; [exact Ha|].
  apply IH.
  - intros a' b' Hin. apply Hstep. now right.
  - apply Hstep; [now left | exact Ha].
Qed.

(** ** The chunker ([fileProcessing.js]) *)

Module Chunker.

(** Longest prefix of [s] whose characters satisfy [p], and the rest. *)
Fixpoint span (p : char -> bool) (s : jsstring) : jsstring * jsstring :=
  match s with
  | [] => ([], [])
  | c :: r =>
      if p c then let '(a, b) := span p r in (c :: a, b) else ([], s)
  end.

(** One attempt to match [/[^.!?]+[.!?]+/] at the start of [s]: the matched
    text and what follows it.  Both quantifiers are greedy; giving back
    characters of the first run can never help, because the character that
    follows a shortened run is not a terminal. *)
Definition match_at (s : jsstring) : option (jsstring * jsstring) :=
  let '(body, r1) := span (fun c => negb (is_terminal c)) s in
  let '(punct, r2) := span is_terminal r1 in
  match body, punct with
  | _ :: _, _ :: _ => Some (body ++ punct, r2)
  | _, _ => None
  end.

Lemma span_length p s : length (snd (span p s)) <= length s.
Proof.
  induction s as [|c r IH]; simpl; [lia|].
  destruct (p c); [|simpl; lia].
  destruct (span p r); simpl in *; lia.
Qed.

Lemma match_at_shorter s m rest :
  match_at s = Some (m, rest) -> length rest < length s.
Proof.
  unfold match_at. intros H.
  destruct (span (fun c => negb (is_terminal c)) s) as [body r1] eqn:E1.
  destruct (span is_terminal r1) as [punct r2] eqn:E2.
  destruct body as [|b body]; [discriminate|].
  destruct punct as [|q punct]; [discriminate|].
  injection H as <- <-.
  pose proof (span_length is_terminal r1) as L2. rewrite E2 in L2. simpl in L2.
  destruct s as [|c s]; [discriminate|].
  simpl in E1. destruct (negb (is_terminal c)); [|discriminate].
  pose proof (span_length (fun c => negb (is_terminal c)) s) as L1.
  destruct (span (fun c => negb (is_terminal c)) s) as [a b'].
  injection E1 as _ _ <-. simpl in *. lia.
Qed.

(** Case analysis that remembers the equation, for the recursion below. *)
Definition inspect {A} (a : A) : {b : A | a = b} := exist _ a eq_refl.

(** [text.match(/[^.!?]+[.!?]+/g) || []]: every match, left to right.  After
    a match the search resumes behind it; where no match starts, the search
    moves on by one character. *)
Equations? matchAll (s : jsstring) : list jsstring by wf (length s) lt :=
  matchAll [] := [];
  matchAll (c :: r) with inspect (match_at (c :: r)) := {
    | exist _ (Some (m, rest)) E := m :: matchAll rest;
    | exist _ None _ := matchAll r }.
Proof.
  - apply match_at_shorter in E. exact E.
  - simpl. lia.
Qed.

(** [sentence.split(/\s+/)]: the pieces between the maximal runs of white
    space.  [prev_space] tells that the previous character was white space, so
    that a run separates only once; white space at either end of the string
    leaves an empty piece there, and the empty string splits into [['']]. *)
Fixpoint split_ws_from (prev_space : bool) (s : jsstring) : list jsstring :=
  match s with
  | [] => [[]]
  | c :: r =>
      if is_space c then
        if prev_space then split_ws_from true r else [] :: split_ws_from true r
      else
        match split_ws_from false r with
        | w :: ws => (c :: w) :: ws
        | [] => [[c]]
        end
  end.
Definition split_ws (s : jsstring) : list jsstring := split_ws_from false s.

(** The body of the [for (const word of words)] loop of [splitLongSentence],
    on the loop state [(chunks, currentChunk)]. *)
Definition splitLongSentence_step (chunkSize : Z)
    (st : list jsstring * jsstring) (word : jsstring)
    : list jsstring * jsstring :=
  let '(chunks, currentChunk) := st in
  if (Z.of_nat (length (currentChunk ++ str " " ++ word)) <=? chunkSize)%Z then
    (chunks, currentChunk ++ (if truthy currentChunk then str " " else []) ++ word)
  else
    (if truthy currentChunk then chunks ++ [currentChunk] else chunks, word).

(** [splitLongSentence(sentence, chunkSize)]. *)
Definition splitLongSentence (sentence : jsstring) (chunkSize : Z)
    : list jsstring :=
  let '(chunks, currentChunk) :=
    fold_left (splitLongSentence_step chunkSize) (split_ws sentence) ([], []) in
  if truthy currentChunk then chunks ++ [currentChunk] else chunks.

(** The variable [currentChunk] of [splitIntoChunks] holds a string, or
    [undefined] after [sentenceChunks[sentenceChunks.length - 1]] on an empty
    array. *)
Inductive jsval :=
| JUndefined
| JString (s : jsstring).

(** [currentChunk + sentence], with JavaScript's conversion of [undefined]. *)
Definition js_add (v : jsval) (s : jsstring) : jsstring :=
  match v with
  | JUndefined => str "undefined" ++ s
  | JString c => c ++ s
  end.

(** [if (currentChunk) chunks.push(currentChunk)]. *)
Definition push_if_truthy (chunks : list jsstring) (v : jsval) : list jsstring :=
  match v with
  | JUndefined => chunks
  | JString c => if truthy c then chunks ++ [c] else chunks
  end.

(** [a[a.length - 1]]. *)
Definition last_element (a : list jsstring) : jsval :=
  match last a with
  | Some c => JString c
  | None => JUndefined
  end.

(** The body of the [for (const sentence of sentences)] loop of
    [splitIntoChunks]; [List.removelast] is [slice(0, -1)]. *)
Definition splitIntoChunks_step (chunkSize : Z)
    (st : list jsstring * jsval) (sentence : jsstring)
    : list jsstring * jsval :=
  let '(chunks, currentChunk) := st in
  if (Z.of_nat (length (js_add currentChunk sentence)) <=? chunkSize)%Z then
    (chunks, JString (js_add currentChunk sentence))
  else
    let chunks := push_if_truthy chunks currentChunk in
    if (chunkSize <? Z.of_nat (length sentence))%Z then
      let sentenceChunks := splitLongSentence sentence chunkSize in
      (chunks ++ List.removelast sentenceChunks, last_element sentenceChunks)
    else
      (chunks, JString sentence).

(** [splitIntoChunks(text, chunkSize)]. *)
Definition splitIntoChunks (text : jsstring) (chunkSize : Z) : list jsstring :=
  let sentences := matchAll text in
  let '(chunks, currentChunk) :=
    fold_left (splitIntoChunks_step chunkSize) sentences ([], JString []) in
  push_if_truthy chunks currentChunk.

(** Two texts are equal up to white space when they agree once every white
    space character is removed: the weakest reading of "white space
    normalization". *)
Definition strip_ws (s : jsstring) : jsstring :=
  List.filter (fun c => negb (is_space c)) s.

(** *** The sentence matcher *)

Lemma matchAll_cons c r :
  matchAll (c :: r) =
  match match_at (c :: r) with
  | Some (m, rest) => m :: matchAll rest
  | None => matchAll r
  end.
Proof.
  simp matchAll.
  destruct (inspect (match_at (c :: r))) as [[[m rest]|] E];
    simp matchAll; rewrite E at 1; reflexivity.
Qed.

Lemma matchAll_nil : matchAll [] = [].
Proof. simp matchAll. reflexivity. Qed.

(** Induction along the search of [matchAll]. *)
Lemma matchAll_rect (P : jsstring -> list jsstring -> Prop) :
  P [] [] ->
  (forall c r m rest,
      match_at (c :: r) = Some (m, rest) ->
      P rest (matchAll rest) -> P (c :: r) (m :: matchAll rest)) ->
  (forall c r,
      match_at (c :: r) = None ->
      P r (matchAll r) -> P (c :: r) (matchAll r)) ->
  forall s, P s (matchAll s).
Proof.
  intros Hnil Hsome Hnone s.
  remember (length s) as n eqn:Hn.
  revert s Hn. induction n as [n IH] using lt_wf_ind. intros s Hn.
  destruct s as [|c r].
  - rewrite matchAll_nil. exact Hnil.
  - rewrite matchAll_cons.
    destruct (match_at (c :: r)) as [[m rest]|] eqn:E.
    + apply Hsome; [exact E|].
      apply match_at_shorter in E.
      apply (IH (length rest)); [lia | reflexivity].
    + apply Hnone; [exact E|].
      apply (IH (length r)); [simpl in Hn; lia | reflexivity].
Qed.

Lemma span_app p s : fst (span p s) ++ snd (span p s) = s.
Proof.
  induction s as [|c r IH]; simpl; [reflexivity|].
  destruct (p c); [|reflexivity].
  destruct (span p r); simpl in *. now rewrite IH.
Qed.

Lemma span_fst_forall p s : forallb p (fst (span p s)) = true.
Proof.
  induction s as [|c r IH]; simpl; [reflexivity|].
  destruct (p c) eqn:E; [|reflexivity].
  destruct (span p r); simpl in *. now rewrite E, IH.
Qed.

(** A run that does not reach the end of [s] is not affected by what is
    appended to [s]. *)
Lemma span_app_stop p s t c r :
  snd (span p s) = c :: r ->
  span p (s ++ t) = (fst (span p s), snd (span p s) ++ t).
Proof.
  induction s as [|d s IH]; simpl; [discriminate|].
  destruct (p d) eqn:E.
  - destruct (span p s) as [a b] eqn:Es; simpl in *.
    intros H. rewrite (IH H). reflexivity.
  - reflexivity.
Qed.

(** A run that reaches the end of [s] goes on into [t]. *)
Lemma span_app_through p s t :
  snd (span p s) = [] ->
  span p (s ++ t) = (s ++ fst (span p t), snd (span p t)).
Proof.
  induction s as [|d s IH]; simpl.
  - intros _. now destruct (span p t).
  - destruct (p d) eqn:E; [|discriminate].
    destruct (span p s) as [a b] eqn:Es; simpl in *.
    intros H. rewrite (IH H). reflexivity.
Qed.

Lemma span_none p s :
  forallb (fun c => negb (p c)) s = true -> span p s = ([], s).
Proof.
  destruct s as [|c r]; simpl; [reflexivity|].
  destruct (p c); simpl; [discriminate | reflexivity].
Qed.

Lemma span_all p s : forallb p s = true -> span p s = (s, []).
Proof.
  induction s as [|c r IH]; simpl; [reflexivity|].
  destruct (p c); simpl; [|discriminate].
  intros H. now rewrite (IH H).
Qed.

(** What a successful match looks like. *)
Lemma match_at_Some s m rest :
  match_at s = Some (m, rest) ->
  exists body punct,
    m = body ++ punct /\ s = m ++ rest /\
    body <> [] /\ punct <> [] /\
    forallb (fun c => negb (is_terminal c)) body = true /\
    forallb is_terminal punct = true.
Proof.
  unfold match_at.
  pose proof (span_app (fun c => negb (is_terminal c)) s) as A1.
  pose proof (span_fst_forall (fun c => negb (is_terminal c)) s) as F1.
  destruct (span (fun c => negb (is_terminal c)) s) as [body r1].
  pose proof (span_app is_terminal r1) as A2.
  pose proof (span_fst_forall is_terminal r1) as F2.
  destruct (span is_terminal r1) as [punct r2]. simpl in *.
  destruct body as [|b body]; [discriminate|].
  destruct punct as [|q punct]; [discriminate|].
  intros H. injection H as <- <-.
  exists (b :: body), (q :: punct).
  repeat split; try discriminate; try assumption.
  rewrite <- A1, <- A2. apply (app_assoc (b :: body) (q :: punct) r2).
Qed.

Lemma matchAll_has_terminal text m :
  In m (matchAll text) -> existsb is_terminal m = true.
Proof.
  revert m. apply (matchAll_rect (fun s l => forall m, In m l -> existsb is_terminal m = true)).
  - intros m [].
  - intros c r m rest E IH m' [<-|Hin]; [|now apply IH].
    apply match_at_Some in E as (body & punct & -> & _ & _ & Hp & _ & Hq).
    rewrite existsb_app. destruct punct as [|q punct]; [congruence|].
    simpl in *. apply andb_prop in Hq as [-> _].
    now rewrite orb_true_r.
  - intros c r _ IH. exact IH.
Qed.

(** Text without terminal punctuation has no sentence. *)
Lemma match_at_no_terminal s :
  forallb (fun c => negb (is_terminal c)) s = true -> match_at s = None.
Proof.
  intros H. unfold match_at. rewrite (span_all _ _ H). simpl.
  now destruct s.
Qed.

Lemma matchAll_no_terminal s :
  forallb (fun c => negb (is_terminal c)) s = true -> matchAll s = [].
Proof.
  induction s as [|c r IH]; [intros _; apply matchAll_nil|].
  intros H. rewrite matchAll_cons, (match_at_no_terminal _ H).
  simpl in H. apply andb_prop in H as [_ H]. now apply IH.
Qed.

(** Appending text without terminal punctuation changes no match. *)
Lemma match_at_app_tail s tail :
  forallb (fun c => negb (is_terminal c)) tail = true ->
  match_at (s ++ tail) =
  match match_at s with
  | Some (m, rest) => Some (m, rest ++ tail)
  | None => None
  end.
Proof.
  intros Ht. unfold match_at.
  destruct (snd (span (fun c => negb (is_terminal c)) s)) as [|q r1'] eqn:E1.
  - (* the first run reaches the end of [s]: no match on either side *)
    rewrite (span_app_through _ s tail E1), (span_all _ _ Ht). simpl.
    destruct (span (fun c => negb (is_terminal c)) s) as [body r1].
    simpl in E1. subst r1. simpl.
    destruct body; simpl; now destruct (s ++ tail).
  - rewrite (span_app_stop _ s tail q r1' E1).
    destruct (span (fun c => negb (is_terminal c)) s) as [body r1].
    simpl in *. subst r1.
    destruct (snd (span is_terminal (q :: r1'))) as [|q2 r2'] eqn:E2.
    + rewrite (span_app_through _ _ tail E2), (span_none is_terminal tail Ht).
      pose proof (span_app is_terminal (q :: r1')) as A.
      destruct (span is_terminal (q :: r1')) as [punct r2].
      simpl in E2, A. subst r2. rewrite app_nil_r in A. subst punct.
      simpl. rewrite app_nil_r. destruct body; reflexivity.
    + rewrite (span_app_stop _ _ tail q2 r2' E2).
      destruct (span is_terminal (q :: r1')) as [punct r2]. simpl.
      destruct body; [reflexivity|]. destruct punct; reflexivity.
Qed.

Lemma matchAll_app_tail pre tail :
  forallb (fun c => negb (is_terminal c)) tail = true ->
  matchAll (pre ++ tail) = matchAll pre.
Proof.
  intros Ht.
  apply (matchAll_rect (fun s l => matchAll (s ++ tail) = l)).
  - simpl. now apply matchAll_no_terminal.
  - intros c r m rest E IH.
    change ((c :: r) ++ tail) with (c :: (r ++ tail)).
    rewrite matchAll_cons.
    change (c :: (r ++ tail)) with ((c :: r) ++ tail).
    rewrite (match_at_app_tail _ _ Ht), E. now rewrite IH.
  - intros c r E IH.
    change ((c :: r) ++ tail) with (c :: (r ++ tail)).
    rewrite matchAll_cons.
    change (c :: (r ++ tail)) with ((c :: r) ++ tail).
    rewrite (match_at_app_tail _ _ Ht), E. exact IH.
Qed.

(** *** Splitting on white space *)

Definition no_space (s : jsstring) : bool :=
  forallb (fun c => negb (is_space c)) s.

Lemma split_ws_from_not_nil b s : split_ws_from b s <> [].
Proof.
  revert b. induction s as [|c r IH]; intros b; simpl; [discriminate|].
  destruct (is_space c).
  - destruct b; [apply IH | discriminate].
  - destruct (split_ws_from false r); discriminate.
Qed.

Lemma split_ws_from_no_space b s w :
  In w (split_ws_from b s) -> no_space w = true.
Proof.
  revert b w. induction s as [|c r IH]; intros b w; simpl.
  - intros [<-|[]]. reflexivity.
  - destruct (is_space c) eqn:Ec.
    + destruct b; [apply IH|].
      intros [<-|H]; [reflexivity | now apply (IH true)].
    + specialize (IH false).
      destruct (split_ws_from false r) as [|w0 ws].
      * intros [<-|[]]. unfold no_space. simpl. now rewrite Ec.
      * intros [<-|H].
        -- unfold no_space. simpl. rewrite Ec. simpl. apply IH. now left.
        -- apply IH. now right.
Qed.

Lemma split_ws_from_has_word b s :
  existsb (fun c => negb (is_space c)) s = true ->
  exists w, In w (split_ws_from b s) /\ w <> [].
Proof.
  revert b. induction s as [|c r IH]; intros b; simpl; [discriminate|].
  destruct (is_space c) eqn:Ec; simpl.
  - intros H. destruct (IH true H) as (w & Hin & Hne).
    exists w. split; [|exact Hne]. destruct b; [exact Hin | now right].
  - intros _. destruct (split_ws_from false r) as [|w0 ws];
      eexists; (split; [left; reflexivity | discriminate]).
Qed.

Lemma terminal_not_space c : is_terminal c = true -> is_space c = false.
Proof.
  unfold is_terminal. intros H.
  apply orb_prop in H as [H|H]; [apply orb_prop in H as [H|H]|];
    apply N.eqb_eq in H; subst c; reflexivity.
Qed.

Lemma has_terminal_has_word s :
  existsb is_terminal s = true ->
  existsb (fun c => negb (is_space c)) s = true.
Proof.
  induction s as [|c r IH]; simpl; [discriminate|].
  destruct (is_terminal c) eqn:E; simpl.
  - intros _. now rewrite (terminal_not_space c E).
  - intros H. rewrite (IH H). apply orb_true_r.
Qed.

(** *** Loop invariants *)

Section LongSentence.

Variable chunkSize : Z.
Variable words : list jsstring.

(** A piece is within the limit, or it is one of the words. *)
Definition piece_ok (c : jsstring) : Prop :=
  (Z.of_nat (length c) <= chunkSize)%Z \/ In c words.

Definition pieces_ok (st : list jsstring * jsstring) : Prop :=
  Forall piece_ok (fst st) /\ (snd st = [] \/ piece_ok (snd st)).

Lemma splitLongSentence_step_ok st word :
  In word words -> pieces_ok st ->
  pieces_ok (splitLongSentence_step chunkSize st word).
Proof.
  destruct st as [chunks cur]. unfold pieces_ok, splitLongSentence_step.
  cbn [fst snd]. intros Hw [Hc Hcur].
  destruct (Z.of_nat (length (cur ++ str " " ++ word)) <=? chunkSize)%Z eqn:E.
  - cbn [fst snd]. split; [exact Hc|]. right. left.
    apply Z.leb_le in E. rewrite !length_app in *.
    destruct (truthy cur);
      change (length (str " ")) with 1%nat in *; cbn [length] in *; lia.
  - cbn [fst snd]. split; [|right; right; exact Hw].
    destruct (truthy cur) eqn:T; [|exact Hc].
    apply Forall_app. split; [exact Hc|].
    constructor; [|constructor].
    destruct Hcur as [->|H]; [discriminate | exact H].
Qed.

(** Once a non-empty word has been taken up, the loop state is never
    empty again. *)
Definition holds_text (st : list jsstring * jsstring) : Prop :=
  fst st <> [] \/ snd st <> [].

Lemma splitLongSentence_step_keeps st word :
  holds_text st -> holds_text (splitLongSentence_step chunkSize st word).
Proof.
  destruct st as [chunks cur]. unfold holds_text, splitLongSentence_step.
  cbn [fst snd]. intros H.
  destruct (Z.of_nat (length (cur ++ str " " ++ word)) <=? chunkSize)%Z.
  - cbn [fst snd]. destruct H as [H|H]; [now left|]. right.
    destruct cur; [congruence | discriminate].
  - cbn [fst snd]. destruct H as [H|H].
    + left. destruct (truthy cur); [|exact H].
      destruct chunks; [congruence | discriminate].
    + left. destruct cur as [|c cur]; [congruence|]. simpl.
      destruct chunks; discriminate.
Qed.

Lemma splitLongSentence_step_takes st word :
  word <> [] -> holds_text (splitLongSentence_step chunkSize st word).
Proof.
  destruct st as [chunks cur]. unfold holds_text, splitLongSentence_step.
  intros Hw.
  destruct (Z.of_nat (length (cur ++ str " " ++ word)) <=? chunkSize)%Z;
    cbn [fst snd]; right.
  - destruct cur; cbn [truthy app]; [exact Hw | discriminate].
  - exact Hw.
Qed.

Lemma splitLongSentence_loop_takes ws st w :
  In w ws -> w <> [] ->
  holds_text (fold_left (splitLongSentence_step chunkSize) ws st).
Proof.
  revert st. induction ws as [|w0 ws IH]; intros st Hin Hne; [destruct Hin|].
  simpl. destruct Hin as [->|Hin]; [|now apply IH].
  apply fold_left_invariant.
  - intros a b _. apply splitLongSentence_step_keeps.
  - now apply splitLongSentence_step_takes.
Qed.

End LongSentence.

Lemma splitLongSentence_pieces sentence chunkSize c :
  In c (splitLongSentence sentence chunkSize) ->
  (Z.of_nat (length c) <= chunkSize)%Z \/ In c (split_ws sentence).
Proof.
  unfold splitLongSentence.
  pose proof (fold_left_invariant (splitLongSentence_step chunkSize)
                (pieces_ok chunkSize (split_ws sentence)) (split_ws sentence)
                (fun a b Hb Ha => splitLongSentence_step_ok _ _ a b Hb Ha)
                ([], [])) as Inv.
  destruct (fold_left _ _ _) as [chunks cur].
  destruct Inv as [Hc Hcur]; [split; [constructor | now left]|].
  simpl in Hc, Hcur. rewrite List.Forall_forall in Hc.
  destruct (truthy cur) eqn:T; [|apply Hc].
  intros Hin. apply in_app_or in Hin as [Hin|[<-|[]]]; [now apply Hc|].
  destruct Hcur as [->|H]; [discriminate | exact H].
Qed.

Lemma splitLongSentence_not_nil sentence chunkSize :
  existsb is_terminal sentence = true ->
  splitLongSentence sentence chunkSize <> [].
Proof.
  intros H. apply has_terminal_has_word in H.
  apply (split_ws_from_has_word false) in H as (w & Hin & Hne).
  unfold splitLongSentence.
  pose proof (splitLongSentence_loop_takes chunkSize (split_ws sentence)
                ([], []) w Hin Hne) as Inv.
  destruct (fold_left _ _ _) as [chunks cur].
  destruct Inv as [Hc|Hcur]; simpl in *.
  - destruct (truthy cur); [|exact Hc].
    destruct chunks; [congruence | discriminate].
  - destruct cur; [congruence|]. simpl. now destruct chunks.
Qed.

Lemma last_element_cases a :
  (a = [] /\ last_element a = JUndefined) \/
  (exists l x, a = l ++ [x] /\ List.removelast a = l /\
               last_element a = JString x).
Proof.
  unfold last_element. destruct (last a) as [x|] eqn:E.
  - right. apply last_Some in E as [l ->].
    exists l, x. now rewrite removelast_last.
  - left. apply last_None in E. now split.
Qed.

Section Chunks.

Variable chunkSize : Z.
Variable sentences : list jsstring.

(** A chunk is within the limit, or it is a single word of one of the
    sentences, free of white space. *)
Definition chunk_ok (c : jsstring) : Prop :=
  (Z.of_nat (length c) <= chunkSize)%Z \/
  (no_space c = true /\
   exists sentence, In sentence sentences /\ In c (split_ws sentence)).

Definition chunks_ok (st : list jsstring * jsval) : Prop :=
  Forall chunk_ok (fst st) /\
  exists c, snd st = JString c /\ (c = [] \/ chunk_ok c).

Lemma push_if_truthy_ok chunks c :
  Forall chunk_ok chunks -> c = [] \/ chunk_ok c ->
  Forall chunk_ok (push_if_truthy chunks (JString c)).
Proof.
  intros Hc Hcur. simpl. destruct (truthy c) eqn:T; [|exact Hc].
  apply Forall_app. split; [exact Hc|]. constructor; [|constructor].
  destruct Hcur as [->|H]; [discriminate | exact H].
Qed.

Lemma splitIntoChunks_step_ok st sentence :
  In sentence sentences -> existsb is_terminal sentence = true ->
  chunks_ok st -> chunks_ok (splitIntoChunks_step chunkSize st sentence).
Proof.
  destruct st as [chunks v]. intros Hs Ht [Hc (c & Hv & Hcur)].
  simpl in Hc, Hv. subst v. unfold splitIntoChunks_step.
  destruct (Z.of_nat (length (js_add (JString c) sentence)) <=? chunkSize)%Z
    eqn:E.
  - split; [exact Hc|]. eexists. split; [reflexivity|].
    right. left. now apply Z.leb_le in E.
  - pose proof (push_if_truthy_ok chunks c Hc Hcur) as Hpush.
    destruct (chunkSize <? Z.of_nat (length sentence))%Z eqn:E2.
    + assert (Hall : forall x, In x (splitLongSentence sentence chunkSize) ->
                               chunk_ok x).
      { intros x Hx. destruct (splitLongSentence_pieces _ _ _ Hx) as [H|H].
        - now left.
        - right. split; [now apply (split_ws_from_no_space false sentence)|].
          now exists sentence. }
      destruct (last_element_cases (splitLongSentence sentence chunkSize))
        as [[Hnil _]|(l & x & Hl & Hr & Hlast)].
      * now apply splitLongSentence_not_nil in Hnil.
      * rewrite Hr, Hlast. split; simpl.
        -- apply Forall_app. split; [exact Hpush|].
           apply List.Forall_forall. intros y Hy. apply Hall.
           rewrite Hl. apply in_or_app. now left.
        -- exists x. split; [reflexivity|]. right. apply Hall.
           rewrite Hl. apply in_or_app. right. now left.
    + split; [exact Hpush|]. exists sentence. split; [reflexivity|].
      right. left. apply Z.ltb_ge in E2. exact E2.
Qed.

End Chunks.

Lemma splitIntoChunks_chunks_ok text chunkSize :
  Forall (chunk_ok chunkSize (matchAll text)) (splitIntoChunks text chunkSize).
Proof.
  unfold splitIntoChunks.
  pose proof (fold_left_invariant (splitIntoChunks_step chunkSize)
                (chunks_ok chunkSize (matchAll text)) (matchAll text)) as Inv.
  specialize (Inv (fun a b Hb Ha =>
                     splitIntoChunks_step_ok chunkSize _ a b Hb
                       (matchAll_has_terminal text b Hb) Ha) ([], JString [])).
  destruct (fold_left _ _ _) as [chunks v].
  destruct Inv as [Hc (c & Hv & Hcur)].
  - split; [constructor|]. exists []. split; [reflexivity | now left].
  - simpl in Hc, Hv. subst v. now apply push_if_truthy_ok.
Qed.

(** *** What the chunks keep *)

Lemma strip_ws_app a b : strip_ws (a ++ b) = strip_ws a ++ strip_ws b.
Proof. apply List.filter_app. Qed.

Lemma strip_ws_no_space w : no_space w = true -> strip_ws w = w.
Proof.
  unfold no_space, strip_ws. induction w as [|c w IH]; simpl; [reflexivity|].
  intros H. apply andb_prop in H as [-> H]. now rewrite (IH H).
Qed.

Lemma split_ws_from_concat b s : concat (split_ws_from b s) = strip_ws s.
Proof.
  revert b. induction s as [|c r IH]; intros b; simpl; [reflexivity|].
  destruct (is_space c) eqn:E; simpl.
  - destruct b; simpl; apply IH.
  - specialize (IH false).
    pose proof (split_ws_from_not_nil false r) as Hne.
    destruct (split_ws_from false r) as [|w ws]; [congruence|].
    simpl in *. now rewrite IH.
Qed.

(** A loop that appends to a measure of its state. *)
Lemma fold_left_measure {A B C} (f : A -> B -> A) (I : A -> Prop)
    (mu : A -> list C) (g : B -> list C) l :
  (forall a b, In b l -> I a -> I (f a b) /\ mu (f a b) = mu a ++ g b) ->
  forall a, I a ->
    I (fold_left f l a) /\
    mu (fold_left f l a) = mu a ++ concat (List.map g l).
Proof.
  induction l as [|b l IH]; intros Hstep a Ha; simpl.
  - now rewrite app_nil_r.
  - destruct (Hstep a b (or_introl eq_refl) Ha) as [Hb Eb].
    destruct (IH (fun a' b' Hin => Hstep a' b' (or_intror Hin)) _ Hb)
      as [Hl El].
    split; [exact Hl|]. now rewrite El, Eb, <- app_assoc.
Qed.

Definition kept_so_far (st : list jsstring * jsstring) : jsstring :=
  strip_ws (concat (fst st) ++ snd st).

Lemma strip_ws_nil : strip_ws [] = [].
Proof. reflexivity. Qed.

Lemma concat_snoc (l : list jsstring) (x : jsstring) :
  concat (l ++ [x]) = concat l ++ x.
Proof. rewrite concat_app. cbn [concat]. now rewrite app_nil_r. Qed.

Ltac text_norm :=
  repeat (rewrite concat_snoc || rewrite concat_app || rewrite strip_ws_app
          || rewrite strip_ws_nil || rewrite app_nil_r || rewrite app_nil_l
          || rewrite <- app_assoc).

Lemma splitLongSentence_step_keeps_text chunkSize st word :
  no_space word = true ->
  kept_so_far (splitLongSentence_step chunkSize st word)
  = kept_so_far st ++ word.
Proof.
  intros Hw. destruct st as [chunks cur].
  unfold kept_so_far, splitLongSentence_step.
  destruct (Z.of_nat (length (cur ++ str " " ++ word)) <=? chunkSize)%Z;
    cbn [fst snd]; destruct (truthy cur) eqn:T;
    text_norm; rewrite ?(strip_ws_no_space word Hw); try reflexivity.
  destruct cur; [reflexivity | discriminate].
Qed.

(** The pieces of a sentence are the sentence, white space apart. *)
Lemma splitLongSentence_keeps_text sentence chunkSize :
  strip_ws (concat (splitLongSentence sentence chunkSize)) = strip_ws sentence.
Proof.
  unfold splitLongSentence.
  destruct (fold_left_measure (splitLongSentence_step chunkSize)
              (fun _ => True) kept_so_far (fun w => w) (split_ws sentence))
    with (a := (@nil jsstring, @nil char)) as [_ E].
  - intros a b Hb _. split; [exact I|].
    apply splitLongSentence_step_keeps_text.
    now apply (split_ws_from_no_space false sentence).
  - exact I.
  - rewrite List.map_id in E. unfold split_ws in E at 2.
    rewrite split_ws_from_concat in E.
    destruct (fold_left _ _ _) as [chunks cur].
    unfold kept_so_far in E. cbn [fst snd concat app strip_ws List.filter] in E.
    rewrite <- E.
    destruct cur as [|c cur]; cbn [truthy].
    + now rewrite app_nil_r.
    + rewrite concat_app. cbn [concat]. now rewrite app_nil_r.
Qed.

Definition kept_in_chunks (st : list jsstring * jsval) : jsstring :=
  strip_ws (concat (fst st) ++ js_add (snd st) []).

Lemma concat_push_if_truthy chunks c :
  concat (push_if_truthy chunks (JString c)) = concat chunks ++ c.
Proof.
  destruct c as [|x c]; cbn [push_if_truthy truthy].
  - now rewrite app_nil_r.
  - rewrite concat_app. cbn [concat]. now rewrite app_nil_r.
Qed.

Lemma splitIntoChunks_step_keeps_text chunkSize st sentence :
  existsb is_terminal sentence = true ->
  (exists c, snd st = JString c) ->
  (exists c, snd (splitIntoChunks_step chunkSize st sentence) = JString c) /\
  kept_in_chunks (splitIntoChunks_step chunkSize st sentence)
  = kept_in_chunks st ++ strip_ws sentence.
Proof.
  intros Ht [c Hc]. destruct st as [chunks v]. simpl in Hc. subst v.
  unfold kept_in_chunks, splitIntoChunks_step.
  destruct (Z.of_nat (length (js_add (JString c) sentence)) <=? chunkSize)%Z;
    cbn [fst snd js_add].
  - split; [eexists; reflexivity|].
    now rewrite !app_nil_r, app_assoc, strip_ws_app.
  - destruct (chunkSize <? Z.of_nat (length sentence))%Z; cbn [fst snd js_add].
    + destruct (last_element_cases (splitLongSentence sentence chunkSize))
        as [[Hnil _]|(l & x & Hl & Hr & Hlast)].
      * now apply splitLongSentence_not_nil in Hnil.
      * rewrite Hr, Hlast. split; [eexists; reflexivity|]. cbn [js_add].
        rewrite concat_app, concat_push_if_truthy, !app_nil_r.
        rewrite <- (splitLongSentence_keeps_text sentence chunkSize), Hl.
        rewrite concat_app. cbn [concat]. rewrite app_nil_r.
        now rewrite <- !app_assoc, !strip_ws_app, <- !app_assoc.
    + split; [eexists; reflexivity|].
      rewrite concat_push_if_truthy, !app_nil_r.
      now rewrite <- app_assoc, !strip_ws_app, <- app_assoc.
Qed.

(** The chunks are the matched sentences, white space apart. *)
Lemma splitIntoChunks_keeps_sentences text chunkSize :
  strip_ws (concat (splitIntoChunks text chunkSize))
  = strip_ws (concat (matchAll text)).
Proof.
  unfold splitIntoChunks.
  destruct (fold_left_measure (splitIntoChunks_step chunkSize)
              (fun st => exists c, snd st = JString c) kept_in_chunks
              strip_ws (matchAll text))
    with (a := (@nil jsstring, JString [])) as [[c Hc] E].
  - intros a b Hb Ha. apply splitIntoChunks_step_keeps_text; [|exact Ha].
    now apply (matchAll_has_terminal text).
  - eexists; reflexivity.
  - destruct (fold_left _ _ _) as [chunks v]. simpl in Hc. subst v.
    rewrite concat_push_if_truthy.
    unfold kept_in_chunks in E. cbn [fst snd js_add concat app] in E.
    rewrite app_nil_r in E. rewrite E. cbn [strip_ws List.filter app].
    clear E. induction (matchAll text) as [|m l IH]; [reflexivity|].
    cbn [List.map concat]. now rewrite strip_ws_app, IH.
Qed.

End Chunker.

(** ** Language code tables of the provider adapters *)

(** An object literal used as a table, from its entries in source order.
    No table below repeats a key.  Lookup is on the table's own keys; the
    names every JavaScript object inherits are not language codes and stay
    outside the model. *)
Definition object_literal (entries : list (string * string))
    : gmap jsstring jsstring :=
  list_to_map (List.map (fun kv => (str (fst kv), str (snd kv))) entries).

(** [languageMap[key] || fallback]. *)
Definition lookup_or (languageMap : gmap jsstring jsstring)
    (key fallback : jsstring) : jsstring :=
  match languageMap !! key with
  | Some v => if truthy v then v else fallback
  | None => fallback
  end.

Module deeplService.

Definition entries : list (string * string) :=
  [ ("en", "EN"); ("es", "ES"); ("fr", "FR"); ("de", "DE"); ("it", "IT");
    ("pt", "PT"); ("ru", "RU"); ("zh", "ZH"); ("ja", "JA"); ("ko", "KO") ]%string.

Definition languageMap := object_literal entries.

Definition mapLanguageCode (languageCode : jsstring) : jsstring :=
  lookup_or languageMap languageCode (toUpperCase languageCode).

End deeplService.

Module microsoftService.

Definition entries : list (string * string) :=
  [ ("zh", "zh-Hans"); ("zh-CN", "zh-Hans"); ("zh-TW", "zh-Hant");
    ("sr-Latn", "sr-Latn"); ("sr-Cyrl", "sr-Cyrl"); ("no", "nb");
    ("pt", "pt"); ("pt-BR", "pt-br"); ("pt-PT", "pt-pt");
    ("sr", "sr-Cyrl") ]%string.

Definition languageMap := object_literal entries.

Definition mapLanguageCode (languageCode : jsstring) : jsstring :=
  lookup_or languageMap languageCode languageCode.

End microsoftService.

Module amazonService.

Definition entries : list (string * string) :=
  [ ("zh", "zh"); ("zh-CN", "zh"); ("zh-TW", "zh-TW"); ("ja", "ja");
    ("ko", "ko"); ("ar", "ar"); ("cs", "cs"); ("da", "da"); ("nl", "nl");
    ("en", "en"); ("fi", "fi"); ("fr", "fr"); ("de", "de"); ("he", "he");
    ("hi", "hi"); ("id", "id"); ("it", "it"); ("ms", "ms"); ("no", "no");
    ("fa", "fa"); ("pl", "pl"); ("pt", "pt"); ("ro", "ro"); ("ru", "ru");
    ("es", "es"); ("sv", "sv"); ("tr", "tr"); ("uk", "uk"); ("vi", "vi")
  ]%string.

Definition languageMap := object_literal entries.

Definition mapLanguageCode (languageCode : jsstring) : jsstring :=
  lookup_or languageMap (toLowerCase languageCode) (toLowerCase languageCode).

End amazonService.

Module libreService.

Definition entries : list (string * string) :=
  [ ("zh", "zh"); ("zh-CN", "zh"); ("zh-TW", "zh"); ("en", "en");
    ("fr", "fr"); ("de", "de"); ("it", "it"); ("ja", "ja"); ("ko", "ko");
    ("pt", "pt"); ("ru", "ru"); ("es", "es"); ("ar", "ar"); ("bg", "bg");
    ("cs", "cs"); ("da", "da"); ("nl", "nl"); ("fi", "fi"); ("el", "el");
    ("he", "he"); ("hi", "hi"); ("hu", "hu"); ("id", "id"); ("pl", "pl");
    ("ro", "ro"); ("sk", "sk"); ("sv", "sv"); ("tr", "tr"); ("uk", "uk")
  ]%string.

Definition languageMap := object_literal entries.

(** [languageCode.split('-')[0]]: the text before the first ['-']. *)
Fixpoint before_dash (s : jsstring) : jsstring :=
  match s with
  | [] => []
  | c :: r => if (c =? 45)%N then [] else c :: before_dash r
  end.

Definition mapLanguageCode (languageCode : jsstring) : jsstring :=
  let baseCode := toLowerCase (before_dash languageCode) in
  lookup_or languageMap languageCode (lookup_or languageMap baseCode baseCode).

End libreService.

(** Facts shared by the tables. *)
Section Tables.

Variable entries : list (string * string).





End Tables.

Lemma lower_char_idempotent c : lower_char (lower_char c) = lower_char c.
Proof.
  unfold lower_char.
  destruct ((65 <=? c)%N && (c <=? 90)%N) eqn:E; [|now rewrite E].
  apply andb_prop in E as [E1 E2].
  apply N.leb_le in E1, E2.
  destruct ((65 <=? c + 32)%N && (c + 32 <=? 90)%N) eqn:E'; [|reflexivity].
  apply andb_prop in E' as [_ E']. apply N.leb_le in E'. lia.
Qed.

Lemma toLowerCase_idempotent s : toLowerCase (toLowerCase s) = toLowerCase s.
Proof.
  unfold toLowerCase. rewrite List.map_map.
  apply List.map_ext. apply lower_char_idempotent.
Qed.



(** ** Errors *)

(** The outcome of a JavaScript call: a value, or a thrown [Error] with its
    message.  Every error of the pipeline is a plain [Error]; nothing but the
    message tells one from another. *)
Inductive result (A : Type) :=
| Ok (a : A)
| Throw (message : jsstring).
Arguments Ok {A} a.
Arguments Throw {A} message.

Definition is_throw {A} (r : result A) : bool :=
  match r with Ok _ => false | Throw _ => true end.

(** ** The job record ([models/Translation.js]) *)

Inductive Status := processing | completed | failed | canceled.

#[global] Instance Status_eq_dec : EqDecision Status.
Proof. solve_decision. Defined.

Record Translation := mkTranslation {
  userId : jsstring;
  status : Status;
  progress : Z;
  totalChunks : Z;
  processedChunks : Z;
  translatedFilePath : option jsstring;
  translatedFileName : option jsstring;
  errorMessage : option jsstring;
  completedAt : bool   (* whether the completion date is set *)
}.

(** [Math.round(p / t * 100)] for integers [p >= 0] and [t > 0], in exact
    arithmetic: the nearest integer, halves rounded up.  The JavaScript value
    is computed in binary floating point and can be one less where
    [100 * p / t] is a half that the division misses (29 of 200, say); the
    record and the invariant use the same expression, and the two values
    the proofs rely on, for [p = 0] and for [p = t], are exact in both. *)
Definition round_percent (p t : Z) : Z := (200 * p + t) / (2 * t).


(** [translationSchema.methods.markCompleted]. *)
Definition markCompleted (this : Translation) (path name : jsstring)
    : Translation :=
  mkTranslation (userId this) completed 100
    (totalChunks this) (processedChunks this)
    (Some path) (Some name) (errorMessage this) true.

(** [translationSchema.methods.markFailed]. *)
Definition markFailed (this : Translation) (message : jsstring) : Translation :=
  mkTranslation (userId this) failed (progress this)
    (totalChunks this) (processedChunks this)
    (translatedFilePath this) (translatedFileName this)
    (Some message) (completedAt this).

(** The enumerations of the schema, checked by [Translation.create]. *)
Definition fileFormat_enum : list jsstring :=
  [str "pdf"; str "epub"; str "txt"; str "docx"].
Definition service_enum : list jsstring :=
  [str "deepl"; str "microsoft"; str "amazon"; str "argos"; str "libre"].

(** ** Text extraction ([fileProcessing.extractText]) *)

Inductive Format := pdf | epub | docx | txt.

(** The [switch (fileFormat.toLowerCase())]. *)
Definition format_of (fileFormat : jsstring) : option Format :=
  let f := toLowerCase fileFormat in
  if bool_decide (f = str "pdf") then Some pdf
  else if bool_decide (f = str "epub") then Some epub
  else if bool_decide (f = str "docx") then Some docx
  else if bool_decide (f = str "txt") then Some txt
  else None.

(** [extractText(filePath, fileFormat)]; [extractFrom] stands for the four
    format readers applied to the file.  The [catch] wraps every error, the
    one of the [default] branch included. *)
Definition extractText (extractFrom : Format -> result jsstring)
    (fileFormat : jsstring) : result jsstring :=
  let body :=
    match format_of fileFormat with
    | Some fmt => extractFrom fmt
    | None => Throw (str "Unsupported file format: " ++ fileFormat)
    end in
  match body with
  | Ok text => Ok text
  | Throw message => Throw (str "Failed to extract text: " ++ message)
  end.

(** ** The orchestrator ([translationService.processTranslation]) *)

Record Job := mkJob {
  job_userId : jsstring;
  sourceLanguage : jsstring;
  targetLanguage : jsstring;
  fileName : jsstring;
  fileFormat : jsstring;
  service : jsstring
}.

(** What the outside world answers during one run: the format readers, the
    provider on its [i]-th call, and the format writers. *)
Record Env := mkEnv {
  extractFrom : Format -> result jsstring;
  provider : nat -> jsstring -> result jsstring;
  writeAs : Format -> jsstring -> result unit
}.

(** [convertToTargetFormat(text, outputPath, format, metadata)]; [writeAs]
    stands for the four format writers applied to the output path.  The
    [catch] wraps every error. *)
Definition convertToTargetFormat (writeAs : Format -> jsstring -> result unit)
    (text format : jsstring) : result unit :=
  let body :=
    match format_of format with
    | Some fmt => writeAs fmt text
    | None => Throw (str "Unsupported output format: " ++ format)
    end in
  match body with
  | Ok _ => Ok tt
  | Throw message => Throw (str "Format conversion failed: " ++ message)
  end.

(** The state shared with the rest of the server: the record of this job in
    the database, every state of it that was persisted (oldest first), the
    output files written, and the chunks handed to a provider. *)
Record World := mkWorld {
  db : option Translation;
  history : list Translation;
  outputFiles : list jsstring;
  submitted : list jsstring
}.

Definition initial_world : World := mkWorld None [] [] [].

(** Persisting a change of the record. *)
Definition persist (f : Translation -> Translation) (w : World) : World :=
  match db w with
  | Some t =>
      mkWorld (Some (f t)) (history w ++ [f t]) (outputFiles w) (submitted w)
  | None => w
  end.

(** The updates [processTranslation] sends through [findByIdAndUpdate]. *)
Definition set_totals (total : Z) (t : Translation) : Translation :=
  mkTranslation (userId t) (status t) (progress t) total 0
    (translatedFilePath t) (translatedFileName t)
    (errorMessage t) (completedAt t).

Definition set_progress (processed pct : Z) (t : Translation) : Translation :=
  mkTranslation (userId t) (status t) pct (totalChunks t) processed
    (translatedFilePath t) (translatedFileName t)
    (errorMessage t) (completedAt t).

Definition set_completed (path name : jsstring) (t : Translation)
    : Translation :=
  mkTranslation (userId t) completed 100 (totalChunks t) (processedChunks t)
    (Some path) (Some name) (errorMessage t) true.

(** [translateWithService]: the [switch (service)] and the provider call. *)
Definition translateWithService (env : Env) (i : nat) (text service : jsstring)
    : result jsstring :=
  if bool_decide (In service service_enum) then provider env i text
  else Throw (str "Unsupported translation service: " ++ service).

(** [path.parse(fileName).name] and [path.extname(fileName)] of a file name
    without directory part: the name is cut at its last dot, unless there is
    none or the only one comes first. *)
Definition split_extension (fileName : jsstring) : jsstring * jsstring :=
  let '(ext, rest) := Chunker.span (fun c => negb (c =? 46)%N) (rev fileName) in
  match rest with
  | _ :: (_ :: _) as name => (rev name, str "." ++ rev ext)
  | _ => (fileName, [])
  end.

(** [outputFileName] and [outputPath] of [processTranslation]. *)
Definition outputFileName (job : Job) : jsstring :=
  let '(name, ext) := split_extension (fileName job) in
  name ++ str "_" ++ targetLanguage job ++ ext.

Definition outputPath (job : Job) : jsstring :=
  str "translations/completed/" ++ outputFileName job.

(** Where the run of [processTranslation] stands: the [await] it is about to
    perform, with the local variables that are live there. *)
Inductive Pc :=
| AtCreate
| AtExtract
| AtTotals (chunks : list jsstring)
| AtTranslate (chunks : list jsstring) (i : nat) (translatedChunks : list jsstring)
| AtProgress (chunks : list jsstring) (i : nat) (translatedChunks : list jsstring)
| AtConvert (translatedText : jsstring)
| AtComplete
| Returned
| Thrown (message : jsstring).

(** The test [i < chunks.length] of the [for] loop. *)
Definition loop_head (chunks : list jsstring) (i : nat)
    (translatedChunks : list jsstring) : Pc :=
  if (i <? length chunks)%nat then AtTranslate chunks i translatedChunks
  else AtConvert (concat translatedChunks).

(** One step of [processTranslation]: from one [await] to the next.
    [Translation.create] validates the two enumerations of the schema; the
    required fields are taken to be present.  Creating and removing the
    working directory and the database calls themselves are taken to
    succeed. *)
Definition step (env : Env) (job : Job) (c : Pc * World) : Pc * World :=
  let '(pc, w) := c in
  match pc with
  | AtCreate =>
      if bool_decide (In (fileFormat job) fileFormat_enum)
         && bool_decide (In (service job) service_enum) then
        let t := mkTranslation (job_userId job) processing 0 0 0
                   None None None false in
        (AtExtract, mkWorld (Some t) (history w ++ [t])
                      (outputFiles w) (submitted w))
      else (Thrown (str "Translation validation failed"), w)
  | AtExtract =>
      match extractText (extractFrom env) (fileFormat job) with
      | Ok extractedText =>
          (AtTotals (Chunker.splitIntoChunks extractedText 1000), w)
      | Throw message => (Thrown message, w)
      end
  | AtTotals chunks =>
      (loop_head chunks 0 [],
       persist (set_totals (Z.of_nat (length chunks))) w)
  | AtTranslate chunks i translatedChunks =>
      let chunk := nth i chunks [] in
      let w' := if bool_decide (In (service job) service_enum)
                then mkWorld (db w) (history w) (outputFiles w)
                       (submitted w ++ [chunk])
                else w in
      match translateWithService env i chunk (service job) with
      | Ok translatedText =>
          (AtProgress chunks i (translatedChunks ++ [translatedText]), w')
      | Throw message => (Thrown message, w')
      end
  | AtProgress chunks i translatedChunks =>
      (loop_head chunks (S i) translatedChunks,
       persist (set_progress (Z.of_nat (S i))
                  (round_percent (Z.of_nat (S i)) (Z.of_nat (length chunks)))) w)
  | AtConvert translatedText =>
      match convertToTargetFormat (writeAs env) translatedText
              (fileFormat job) with
      | Ok _ =>
          (AtComplete, mkWorld (db w) (history w)
                         (outputFiles w ++ [outputPath job]) (submitted w))
      | Throw message => (Thrown message, w)
      end
  | AtComplete =>
      (Returned, persist (set_completed (outputPath job) (outputFileName job)) w)
  | Returned => (Returned, w)
  | Thrown message => (Thrown message, w)
  end.

(** ** Cancellation ([translationController.cancelTranslation]) *)

(** The request of user [user] to cancel the job, with the HTTP status of the
    answer.  [save] writes the one field that was changed. *)
Definition cancelTranslation (user : jsstring) (w : World) : World * Z :=
  match db w with
  | None => (w, 404%Z)
  | Some translation =>
      if negb (bool_decide (userId translation = user)) then (w, 403%Z)
      else if bool_decide (status translation = completed)
              || bool_decide (status translation = canceled) then (w, 400%Z)
      else
        (persist (fun t =>
                    mkTranslation (userId t) canceled (progress t)
                      (totalChunks t) (processedChunks t)
                      (translatedFilePath t) (translatedFileName t)
                      (errorMessage t) (completedAt t)) w,
         200%Z)
  end.

(** ** Runs *)

(** What happens next: the orchestrator moves on to its next [await], or a
    cancellation request of some user is served.  A request is served
    between two steps of the orchestrator, its read and its write of the
    record taken together. *)
Inductive Action :=
| Tick
| Cancel (user : jsstring).

Definition act (env : Env) (job : Job) (c : Pc * World) (a : Action)
    : Pc * World :=
  match a with
  | Tick => step env job c
  | Cancel user => (fst c, fst (cancelTranslation user (snd c)))
  end.

Definition run (env : Env) (job : Job) (schedule : list Action)
    : Pc * World :=
  fold_left (act env job) schedule (AtCreate, initial_world).

(** A run left alone, with as many steps as the longest run takes. *)
Definition enough_steps (env : Env) (job : Job) : nat :=
  match extractText (extractFrom env) (fileFormat job) with
  | Ok text => 5 + 2 * length (Chunker.splitIntoChunks text 1000)
  | Throw _ => 2
  end.

Definition processTranslation (env : Env) (job : Job) : Pc * World :=
  run env job (repeat Tick (enough_steps env job)).

(** ** Invariants of the job record *)















(** ** Termination of a run *)








(** ** What a cancellation request can influence *)

(** The part of a configuration that [step] reads: the record in the
    database is not in it. *)
Definition control (c : Pc * World) : Pc * list jsstring * list jsstring :=
  (fst c, outputFiles (snd c), submitted (snd c)).

Lemma persist_control f pc w : control (pc, persist f w) = control (pc, w).
Proof. unfold control, persist. simpl. now destruct (db w). Qed.






(** ** The job queue ([queueService.js]) *)

Module queueService.









End queueService.

(** ** The offline provider ([argos.js]) *)

Module argosService.

Definition entries : list (string * string) :=
  [ ("en", "en"); ("es", "es"); ("fr", "fr"); ("de", "de"); ("it", "it");
    ("pt", "pt"); ("ru", "ru"); ("zh", "zh"); ("zh-CN", "zh"); ("ja", "ja");
    ("ar", "ar"); ("hi", "hi"); ("bg", "bg"); ("ca", "ca"); ("cs", "cs");
    ("da", "da"); ("nl", "nl"); ("fi", "fi"); ("el", "el"); ("he", "he");
    ("hu", "hu"); ("id", "id"); ("ko", "ko"); ("pl", "pl"); ("ro", "ro");
    ("sk", "sk"); ("sv", "sv"); ("tr", "tr"); ("uk", "uk") ]%string.

Definition languageMap := object_literal entries.

Definition mapLanguageCode (languageCode : jsstring) : jsstring :=
  lookup_or languageMap languageCode languageCode.

(** *** The calls to the operating system *)

Inductive TempFile := tempInputPath | tempOutputPath.

(** The command lines given to [execPromise]. *)
Inductive Command :=
| which_argos_translate
| list_available_packages
| install_package (packageId : jsstring)
| translate_command (from to : jsstring).

Inductive Request :=
| exec (command : Command)
| writeFile (file : TempFile) (data : jsstring)
| readFile (file : TempFile)
| unlink (file : TempFile).

(** What one call of [translate] did, in order: the requests with their
    answers (the standard output or the file content, or the error), and the
    calls of [downloadLanguagePair]. *)
Inductive Event :=
| Called_downloadLanguagePair (sourceLanguage targetLanguage : jsstring)
| Did (request : Request) (answer : result jsstring).

(** The system answers a request knowing all that happened before. *)
Definition System := list Event -> Request -> result jsstring.

(** Computations that call the system and may throw. *)
Definition M (A : Type) : Type := System -> list Event -> result A * list Event.

Definition ret {A} (a : A) : M A := fun _ tr => (Ok a, tr).

Definition throw {A} (message : jsstring) : M A := fun _ tr => (Throw message, tr).

Definition bind {A B} (m : M A) (k : A -> M B) : M B :=
  fun sys tr =>
    match m sys tr with
    | (Ok a, tr') => k a sys tr'
    | (Throw message, tr') => (Throw message, tr')
    end.

Definition try_catch {A} (m : M A) (handler : jsstring -> M A) : M A :=
  fun sys tr =>
    match m sys tr with
    | (Ok a, tr') => (Ok a, tr')
    | (Throw message, tr') => handler message sys tr'
    end.

Definition await (request : Request) : M jsstring :=
  fun sys tr =>
    let answer := sys tr request in (answer, tr ++ [Did request answer]).

Definition note (e : Event) : M unit := fun _ tr => (Ok tt, tr ++ [e]).

Notation "x <- m ;; k" := (bind m (fun x => k))
  (at level 100, m at next level, right associativity).
Notation "m ;;; k" := (bind m (fun _ => k))
  (at level 100, right associativity).

(** [await Promise.all([fs.unlink(a), fs.unlink(b)])]: both removals are
    started; the call throws when one of them fails. *)
Definition unlink_both : M unit :=
  fun sys tr =>
    let a1 := sys tr (unlink tempInputPath) in
    let tr1 := tr ++ [Did (unlink tempInputPath) a1] in
    let a2 := sys tr1 (unlink tempOutputPath) in
    let tr2 := tr1 ++ [Did (unlink tempOutputPath) a2] in
    match a1, a2 with
    | Ok _, Ok _ => (Ok tt, tr2)
    | Throw message, _ => (Throw message, tr2)
    | Ok _, Throw message => (Throw message, tr2)
    end.

(** *** The two regular expressions over the package list

    The language codes are taken literally: they hold no operator of
    regular expressions. *)

Definition pair_text (sourceLanguage targetLanguage : jsstring) : jsstring :=
  sourceLanguage ++ str " -> " ++ targetLanguage.

(** One attempt of [/(\S+)\s+<pair>/] at the start of [s]: the first group.
    The run of [\s+] may give back white space to the pair. *)
Definition package_at (pair s : jsstring) : option jsstring :=
  let '(token, r1) := Chunker.span (fun c => negb (is_space c)) s in
  let '(spaces, r2) := Chunker.span is_space r1 in
  match token, spaces with
  | _ :: _, _ :: _ =>
      if existsb (fun k => starts_with pair (skipn k (spaces ++ r2)))
           (seq 1 (length spaces))
      then Some token else None
  | _, _ => None
  end.

(** [pairRegex.exec(availablePackages)], group 1 of the first match. *)
Fixpoint find_package (pair s : jsstring) : option jsstring :=
  match package_at pair s with
  | Some packageId => Some packageId
  | None =>
      match s with
      | [] => None
      | _ :: r => find_package pair r
      end
  end.

(** *** The adapter *)

Definition isInstalled : M bool :=
  try_catch (await (exec which_argos_translate) ;;; ret true)
            (fun _ => ret false).

Definition isLanguagePairAvailable (sourceLanguage targetLanguage : jsstring)
    : M bool :=
  try_catch
    (installed <- isInstalled ;;
     if negb installed then throw (str "Argos Translate not installed")
     else
       stdout <- await (exec list_available_packages) ;;
       ret (includes stdout (pair_text sourceLanguage targetLanguage)))
    (fun _ => ret false).

Definition downloadLanguagePair (sourceLanguage targetLanguage : jsstring)
    : M unit :=
  note (Called_downloadLanguagePair sourceLanguage targetLanguage) ;;;
  try_catch
    (installed <- isInstalled ;;
     if negb installed then throw (str "Argos Translate not installed")
     else
       availablePackages <- await (exec list_available_packages) ;;
       match find_package (pair_text sourceLanguage targetLanguage)
               availablePackages with
       | None =>
           throw (str "No package available for "
                  ++ pair_text sourceLanguage targetLanguage)
       | Some packageId =>
           await (exec (install_package packageId)) ;;; ret tt
       end)
    (fun message => throw (str "Failed to download language pair: " ++ message)).

Definition translate (text sourceLanguage targetLanguage : jsstring)
    : M jsstring :=
  try_catch
    (let argosSourceLang := mapLanguageCode sourceLanguage in
     let argosTargetLang := mapLanguageCode targetLanguage in
     isPairAvailable <- isLanguagePairAvailable argosSourceLang argosTargetLang ;;
     (if negb isPairAvailable
      then downloadLanguagePair argosSourceLang argosTargetLang
      else ret tt) ;;;
     await (writeFile tempInputPath text) ;;;
     await (exec (translate_command argosSourceLang argosTargetLang)) ;;;
     translatedText <- await (readFile tempOutputPath) ;;
     unlink_both ;;;
     ret translatedText)
    (fun message =>
       if includes message (str "not installed")
          || includes message (str "No such file or directory")
       then throw (str "Argos Translate not installed. Please install it first.")
       else if includes message (str "package not available")
       then throw (str "Language pair from " ++ sourceLanguage ++ str " to "
                   ++ targetLanguage ++ str " is not available.")
       else throw (str "Argos Translate failed: " ++ message)).

(** *** Counting what a call did *)

Definition is_download (e : Event) : bool :=
  match e with Called_downloadLanguagePair _ _ => true | _ => false end.

Definition is_install (e : Event) : bool :=
  match e with Did (exec (install_package _)) _ => true | _ => false end.

Definition is_translation (e : Event) : bool :=
  match e with Did (exec (translate_command _ _)) _ => true | _ => false end.

Definition installed_ok (e : Event) : bool :=
  match e with Did (exec (install_package _)) (Ok _) => true | _ => false end.

Definition input_written (e : Event) : bool :=
  match e with Did (writeFile tempInputPath _) (Ok _) => true | _ => false end.

Definition translation_failed (e : Event) : bool :=
  match e with
  | Did (exec (translate_command _ _)) (Throw _) => true
  | _ => false
  end.

Definition count (p : Event -> bool) (tr : list Event) : nat :=
  length (List.filter p tr).

(** *** What each part of [translate] leaves in the trace *)

(** Events of the probes: [which] and the package list. *)
Definition quiet (e : Event) : bool :=
  match e with
  | Did (exec which_argos_translate) _
  | Did (exec list_available_packages) _ => true
  | _ => false
  end.

Definition counted (p : Event -> bool) : Prop :=
  forall e, quiet e = true -> p e = false.

Lemma count_app p a b : count p (a ++ b) = (count p a + count p b)%nat.
Proof. unfold count. now rewrite List.filter_app, length_app. Qed.

Lemma count_cons p e a :
  count p (e :: a) = ((if p e then 1 else 0) + count p a)%nat.
Proof. unfold count. simpl. now destruct (p e). Qed.

Lemma count_nil p : count p [] = 0%nat.
Proof. reflexivity. Qed.

Lemma count_quiet p ext :
  counted p -> Forall (fun e => quiet e = true) ext -> count p ext = 0%nat.
Proof.
  intros Hp H. induction H as [|e ext He _ IH]; [reflexivity|].
  now rewrite count_cons, (Hp e He), IH.
Qed.

Ltac counted_tac :=
  intros [? ?|[[| | |]| | |] ?]; simpl; try discriminate; reflexivity.

Lemma counted_download : counted is_download.
Proof. counted_tac. Qed.
Lemma counted_install : counted is_install.
Proof. counted_tac. Qed.
Lemma counted_translation : counted is_translation.
Proof. counted_tac. Qed.
Lemma counted_installed_ok : counted installed_ok.
Proof. counted_tac. Qed.
Lemma counted_input_written : counted input_written.
Proof. counted_tac. Qed.
Lemma counted_translation_failed : counted translation_failed.
Proof. counted_tac. Qed.

Lemma isInstalled_run sys tr :
  isInstalled sys tr =
  (Ok (negb (is_throw (sys tr (exec which_argos_translate)))),
   tr ++ [Did (exec which_argos_translate)
            (sys tr (exec which_argos_translate))]).
Proof.
  unfold isInstalled, try_catch, bind, await, ret.
  now destruct (sys tr (exec which_argos_translate)).
Qed.

(** The availability check always answers, and only probes. *)
Lemma isLanguagePairAvailable_run s t sys tr :
  exists b ext,
    isLanguagePairAvailable s t sys tr = (Ok b, tr ++ ext) /\
    Forall (fun e => quiet e = true) ext.
Proof.
  unfold isLanguagePairAvailable, try_catch, bind.
  rewrite isInstalled_run.
  destruct (sys tr (exec which_argos_translate)) as [out|m]; cbn.
  - unfold await, ret.
    destruct (sys _ (exec list_available_packages)) as [stdout|m] eqn:E.
    + eexists _, [_; _]. rewrite <- app_assoc. split; [reflexivity|].
      repeat constructor.
    + eexists _, [_; _]. rewrite <- app_assoc. split; [reflexivity|].
      repeat constructor.
  - eexists _, [_]. split; [reflexivity|]. repeat constructor.
Qed.

(** The download is announced, probes, and runs at most one installation,
    on whose success its own depends. *)
Lemma downloadLanguagePair_run s t sys tr :
  exists r probes rest,
    downloadLanguagePair s t sys tr
    = (r, tr ++ Called_downloadLanguagePair s t :: probes ++ rest) /\
    Forall (fun e => quiet e = true) probes /\
    ((rest = [] /\ is_throw r = true) \/
     (exists packageId answer,
         rest = [Did (exec (install_package packageId)) answer] /\
         is_throw r = is_throw answer)).
Proof.
  unfold downloadLanguagePair, try_catch, bind, note.
  rewrite isInstalled_run.
  set (tr0 := tr ++ [Called_downloadLanguagePair s t]).
  assert (Etr : forall l, tr0 ++ l = tr ++ Called_downloadLanguagePair s t :: l).
  { intros l. unfold tr0. now rewrite <- app_assoc. }
  destruct (sys tr0 (exec which_argos_translate)) as [out|m]; cbn.
  - unfold await, ret, throw.
    destruct (sys _ (exec list_available_packages)) as [stdout|m] eqn:E.
    + destruct (find_package _ stdout) as [packageId|].
      * destruct (sys _ (exec (install_package packageId))) as [o|m] eqn:E2.
        -- eexists _, [_; _], [_]. rewrite <- !app_assoc, Etr.
           split; [reflexivity|]. split; [repeat constructor|].
           right. eexists _, _. split; [reflexivity|]. reflexivity.
        -- eexists _, [_; _], [_]. rewrite <- !app_assoc, Etr.
           split; [reflexivity|]. split; [repeat constructor|].
           right. eexists _, _. split; [reflexivity|]. reflexivity.
      * eexists _, [_; _], []. rewrite <- !app_assoc, Etr.
        split; [reflexivity|]. split; [repeat constructor|]. now left.
    + eexists _, [_; _], []. rewrite <- !app_assoc, Etr.
      split; [reflexivity|]. split; [repeat constructor|]. now left.
  - eexists _, [_], []. rewrite Etr.
    split; [reflexivity|]. split; [repeat constructor|]. now left.
Qed.

(** The steps of [translate] that follow the provisioning. *)
Definition translation_steps (text s t : jsstring) : M jsstring :=
  await (writeFile tempInputPath text) ;;;
  await (exec (translate_command s t)) ;;;
  translatedText <- await (readFile tempOutputPath) ;;
  unlink_both ;;;
  ret translatedText.

Lemma translation_steps_run text s t sys tr :
  exists r ext,
    translation_steps text s t sys tr = (r, tr ++ ext) /\
    count is_download ext = 0%nat /\
    count is_install ext = 0%nat /\
    count installed_ok ext = 0%nat /\
    (count is_translation ext <= 1)%nat /\
    (count is_translation ext = 0%nat -> is_throw r = true) /\
    (count input_written ext = 1%nat -> count is_translation ext = 1%nat) /\
    (count translation_failed ext = 1%nat ->
     is_throw r = true /\
     exists m, last (tr ++ ext)
               = Some (Did (exec (translate_command s t)) (Throw m))).
Proof.
  unfold translation_steps, bind, await, ret, unlink_both.
  destruct (sys tr (writeFile tempInputPath text)) as [o1|m1] eqn:E1.
  2:{ eexists _, [_]. split; [reflexivity|]. cbn.
      repeat split; try lia; try reflexivity; discriminate. }
  destruct (sys _ (exec (translate_command s t))) as [o2|m2] eqn:E2.
  2:{ eexists _, [_; _]. rewrite <- app_assoc. split; [reflexivity|].
      cbn. repeat split; try lia; try reflexivity.
      exists m2. rewrite last_app. reflexivity. }
  destruct (sys _ (readFile tempOutputPath)) as [o3|m3] eqn:E3.
  2:{ eexists _, [_; _; _]. rewrite <- !app_assoc. split; [reflexivity|].
      cbn. repeat split; try lia; try reflexivity; discriminate. }
  destruct (sys _ (unlink tempInputPath)) as [o4|m4] eqn:E4;
    destruct (sys _ (unlink tempOutputPath)) as [o5|m5] eqn:E5;
    (eexists _, [_; _; _; _; _]; rewrite <- !app_assoc;
     split; [reflexivity|]; cbn;
     repeat split; try lia; try reflexivity; discriminate).
Qed.

Lemma translate_unfold text sourceLanguage targetLanguage :
  translate text sourceLanguage targetLanguage =
  try_catch
    (isPairAvailable <- isLanguagePairAvailable
                          (mapLanguageCode sourceLanguage)
                          (mapLanguageCode targetLanguage) ;;
     (if negb isPairAvailable
      then downloadLanguagePair (mapLanguageCode sourceLanguage)
             (mapLanguageCode targetLanguage)
      else ret tt) ;;;
     translation_steps text (mapLanguageCode sourceLanguage)
       (mapLanguageCode targetLanguage))
    (fun message =>
       if includes message (str "not installed")
          || includes message (str "No such file or directory")
       then throw (str "Argos Translate not installed. Please install it first.")
       else if includes message (str "package not available")
       then throw (str "Language pair from " ++ sourceLanguage ++ str " to "
                   ++ targetLanguage ++ str " is not available.")
       else throw (str "Argos Translate failed: " ++ message)).
Proof. reflexivity. Qed.

(** The [catch] of [translate] throws again, and calls nothing. *)
Lemma translate_handler_throws sourceLanguage targetLanguage message sys tr :
  exists message',
    (if includes message (str "not installed")
        || includes message (str "No such file or directory")
     then throw (str "Argos Translate not installed. Please install it first.")
     else if includes message (str "package not available")
     then throw (str "Language pair from " ++ sourceLanguage ++ str " to "
                 ++ targetLanguage ++ str " is not available.")
     else throw (str "Argos Translate failed: " ++ message)) sys tr
    = (@Throw jsstring message', tr).
Proof.
  destruct (_ || _); [eexists; reflexivity|].
  destruct (includes _ _); eexists; reflexivity.
Qed.

(** The steps inside the [try] of [translate]. *)
Definition translate_body (text s t : jsstring) : M jsstring :=
  isPairAvailable <- isLanguagePairAvailable s t ;;
  (if negb isPairAvailable then downloadLanguagePair s t else ret tt) ;;;
  translation_steps text s t.

Lemma translate_run text sourceLanguage targetLanguage sys tr :
  let body := translate_body text (mapLanguageCode sourceLanguage)
                (mapLanguageCode targetLanguage) sys tr in
  snd (translate text sourceLanguage targetLanguage sys tr) = snd body /\
  is_throw (fst (translate text sourceLanguage targetLanguage sys tr))
  = is_throw (fst body).
Proof.
  rewrite translate_unfold. unfold try_catch. fold (translate_body text
    (mapLanguageCode sourceLanguage) (mapLanguageCode targetLanguage)).
  cbv zeta.
  destruct (translate_body _ _ _ sys tr) as [[a|m] tr']; [now split|].
  destruct (translate_handler_throws sourceLanguage targetLanguage m sys tr')
    as [m' ->].
  now split.
Qed.

Ltac count_norm :=
  repeat (rewrite count_app || rewrite count_cons || rewrite count_nil);
  repeat match goal with
         | Hq : Forall (fun e => quiet e = true) ?l |- context [count ?p ?l] =>
             rewrite (count_quiet p l)
               by (first [ exact counted_download | exact counted_install
                         | exact counted_translation
                         | exact counted_installed_ok
                         | exact counted_input_written
                         | exact counted_translation_failed ] || exact Hq)
         end;
  cbn [is_download is_install is_translation installed_ok input_written
       translation_failed Nat.add].

(** What a call of [translate_body] does when the pair is not available. *)
Lemma translate_body_unavailable text s t sys :
  fst (isLanguagePairAvailable s t sys []) = Ok false ->
  let outcome := fst (translate_body text s t sys []) in
  let tr := snd (translate_body text s t sys []) in
  count is_download tr = 1%nat /\
  (count is_install tr <= 1)%nat /\
  (count is_translation tr <= 1)%nat /\
  (count installed_ok tr = 0%nat ->
   count is_translation tr = 0%nat /\ is_throw outcome = true) /\
  (count installed_ok tr = 1%nat -> count input_written tr = 1%nat ->
   count is_translation tr = 1%nat) /\
  (count translation_failed tr = 1%nat ->
   is_throw outcome = true /\
   exists m, last tr = Some (Did (exec (translate_command s t)) (Throw m))).
Proof.
  intros H. unfold translate_body, bind.
  destruct (isLanguagePairAvailable_run s t sys []) as (b & ext0 & E0 & Q0).
  rewrite E0 in H |- *. simpl in H. injection H as ->.
  cbn [negb app].
  destruct (downloadLanguagePair_run s t sys ext0)
    as (r1 & probes & rest & E1 & Q1 & Hrest).
  rewrite E1.
  destruct Hrest as [[-> Hthrow]|(packageId & answer & -> & Hthrow)].
  - destruct r1 as [[]|m]; [discriminate|]. cbn [fst snd].
    rewrite app_nil_r. count_norm.
    repeat split; try lia; try discriminate.
  - destruct answer as [o|m]; destruct r1 as [[]|m']; try discriminate.
    + destruct (translation_steps_run text s t sys
                  (ext0 ++ Called_downloadLanguagePair s t
                        :: probes ++ [Did (exec (install_package packageId)) (Ok o)]))
        as (r & ext & E & C1 & C2 & C3 & C4 & C5 & C6 & C7).
      rewrite E. cbn [fst snd]. count_norm.
      rewrite C1, C2, C3.
      repeat split; intros; try lia.
      * apply C7. lia.
      * apply C7. lia.
    + cbn [fst snd]. count_norm.
      repeat split; try lia; try discriminate.
Qed.

End argosService.

(** ** The record never fails *)

(** No state is persisted as [failed] or with an error message. *)
Definition not_failed (t : Translation) : Prop :=
  status t <> failed /\ errorMessage t = None.

Definition no_failure (c : Pc * World) : Prop :=
  Forall not_failed (history (snd c)) /\
  forall t, db (snd c) = Some t -> not_failed t.

Lemma persist_no_failure f pc pc' w :
  (forall t, not_failed t -> not_failed (f t)) ->
  no_failure (pc, w) -> no_failure (pc', persist f w).
Proof.
  intros Hf [Hh Hdb]. simpl in *. unfold persist.
  destruct (db w) as [t|] eqn:E;
    [|split; simpl; [exact Hh | intros t Ht; rewrite E in Ht; discriminate]].
  specialize (Hdb t eq_refl). split; simpl.
  - apply Forall_app. split; [exact Hh|]. constructor; [now apply Hf|constructor].
  - intros t' Ht'. injection Ht' as <-. now apply Hf.
Qed.

Lemma step_no_failure env job c : no_failure c -> no_failure (step env job c).
Proof.
  destruct c as [pc w]. intros H.
  assert (Hkeep : forall f pc',
             (forall t, status (f t) = status t \/ status (f t) = completed) ->
             (forall t, errorMessage (f t) = errorMessage t) ->
             no_failure (pc', persist f w)).
  { intros f pc' Hs He. apply (persist_no_failure f pc pc' w); [|exact H].
    intros t [H1 H2]. split; [|now rewrite He].
    destruct (Hs t) as [->| ->]; [exact H1 | discriminate]. }
  destruct pc; simpl;
    repeat match goal with
           | |- context [if ?b then _ else _] => destruct b
           | |- context [match ?r with Ok _ => _ | Throw _ => _ end] =>
               destruct r
           end;
    try exact H;
    try (apply Hkeep; intros t; simpl; auto).
  (* the record as [Translation.create] makes it *)
  destruct H as [Hh _]. simpl in Hh. split; simpl.
  - apply Forall_app. split; [exact Hh|].
    constructor; [|constructor]. split; simpl; [discriminate | reflexivity].
  - intros t Ht. injection Ht as <-. split; simpl; [discriminate | reflexivity].
Qed.

Lemma cancel_no_failure user pc w :
  no_failure (pc, w) -> no_failure (pc, fst (cancelTranslation user w)).
Proof.
  intros H. unfold cancelTranslation.
  destruct (db w) eqn:E; [|exact H].
  destruct (negb _); [exact H|]. destruct (_ || _); [exact H|].
  cbn [fst]. apply (persist_no_failure _ pc pc w); [|exact H].
  intros t' [? ?]. split; simpl; [discriminate | assumption].
Qed.

Lemma run_no_failure env job schedule : no_failure (run env job schedule).
Proof.
  unfold run. apply fold_left_invariant.
  - intros c a _ Hc. destruct a as [|user]; simpl.
    + now apply step_no_failure.
    + destruct c as [pc w]. now apply cancel_no_failure.
  - split; simpl; [constructor | discriminate].
Qed.

(** ** Example jobs *)


Definition job_txt : Job :=
  mkJob (str "user-1") (str "en") (str "es") (str "book.txt") (str "txt")
    (str "deepl").

Definition job_pdf : Job :=
  mkJob (str "user-1") (str "en") (str "es") (str "book.pdf") (str "pdf")
    (str "deepl").


(** A provider that puts its input in upper case; nothing fails. *)
Definition env_uppercase (text : jsstring) : Env :=
  mkEnv (fun _ => Ok text) (fun _ chunk => Ok (toUpperCase chunk))
    (fun _ _ => Ok tt).

(** The reader of the source file fails. *)
Definition env_unreadable : Env :=
  mkEnv (fun _ => Throw (str "PDF extraction failed: Invalid PDF structure"))
    (fun _ chunk => Ok (toUpperCase chunk)) (fun _ _ => Ok tt).


(** Argos is installed and lists one package, for English to German. *)
Definition system_en_de : argosService.System :=
  fun _ request =>
    match request with
    | argosService.exec argosService.which_argos_translate =>
        Ok (str "/usr/bin/argos-translate")
    | argosService.exec argosService.list_available_packages =>
        Ok (str "translate-en_de  en -> de")
    | argosService.readFile _ => Ok (str "Hallo Welt.")
    | _ => Ok []
    end.

(** A system whose package list shows the pair English to French only once
    the download has been called for. *)
Definition system_installable : argosService.System :=
  fun tr request =>
    match request with
    | argosService.exec argosService.which_argos_translate =>
        Ok (str "/usr/bin/argos-translate")
    | argosService.exec argosService.list_available_packages =>
        if existsb argosService.is_download tr
        then Ok (str "translate-en_fr  en -> fr")
        else Ok (str "translate-en_de  en -> de")
    | argosService.readFile _ => Ok (str "Bonjour.")
    | _ => Ok []
    end.

(** * Properties of the pipeline *)

(** ** Chunker *)

(** C1 (the code departs from it): the chunks hold the text of the matched
    sentences, white space apart, and nothing else; text after the last
    terminal punctuation mark belongs to no sentence and is lost.
    [splitIntoChunks] returns no chunk at all for ['Hello world'], and only
    the first sentence of a text whose second sentence has no full stop; in
    both cases the concatenated chunks differ from the input even after all
    white space is removed. *)
Theorem splitIntoChunks_loses_unterminated_text :
  (forall text L,
      Chunker.strip_ws (concat (Chunker.splitIntoChunks text L))
      = Chunker.strip_ws (concat (Chunker.matchAll text))) /\
  Chunker.splitIntoChunks (str "Hello world") 1000 = [] /\
  Chunker.strip_ws (concat (Chunker.splitIntoChunks (str "Hello world") 1000))
    <> Chunker.strip_ws (str "Hello world") /\
  Chunker.splitIntoChunks (str "One sentence. And a second one") 1000
    = [str "One sentence."] /\
  Chunker.strip_ws
    (concat (Chunker.splitIntoChunks (str "One sentence. And a second one") 1000))
    <> Chunker.strip_ws (str "One sentence. And a second one").
Proof.
  split; [exact Chunker.splitIntoChunks_keeps_sentences|].
  split; [vm_compute; reflexivity|].
  split; [vm_compute; discriminate|].
  split; [vm_compute; reflexivity|].
  vm_compute. discriminate.
Qed.

(** C2: for every text and every limit [L > 0], each chunk produced by
    [splitIntoChunks] has at most [L] characters, unless it is a single word
    of the text, free of white space and longer than [L], that
    [splitLongSentence] passed on unchanged as a chunk of its own. *)
Theorem splitIntoChunks_chunk_bound (text : jsstring) (L : Z) (chunk : jsstring) :
  (0 < L)%Z ->
  In chunk (Chunker.splitIntoChunks text L) ->
  (Z.of_nat (length chunk) <= L)%Z \/
  ((L < Z.of_nat (length chunk))%Z /\
   Chunker.no_space chunk = true /\
   exists sentence,
     In sentence (Chunker.matchAll text) /\
     In chunk (Chunker.split_ws sentence)).
Proof.
  intros _ Hin.
  pose proof (Chunker.splitIntoChunks_chunks_ok text L) as Hall.
  rewrite List.Forall_forall in Hall. specialize (Hall chunk Hin).
  destruct (Z.le_gt_cases (Z.of_nat (length chunk)) L) as [Hle|Hgt];
    [now left|].
  destruct Hall as [Hle|[Hns Hex]]; [now left|].
  right. repeat split; assumption.
Qed.

Lemma splitIntoChunks_chunk_bound_witness :
  (Z.of_nat (length (str "cccccccccc")) <= 5)%Z \/
  ((5 < Z.of_nat (length (str "cccccccccc")))%Z /\
   Chunker.no_space (str "cccccccccc") = true /\
   exists sentence,
     In sentence (Chunker.matchAll (str "Go on. aaa bbb cccccccccc dd e f.")) /\
     In (str "cccccccccc") (Chunker.split_ws sentence)).
Proof.
  apply (splitIntoChunks_chunk_bound
           (str "Go on. aaa bbb cccccccccc dd e f.") 5 (str "cccccccccc")).
  - lia.
  - vm_compute. do 4 right. left. reflexivity.
Defined.

(** C10: text without ['.'], ['!'] or ['?'] yields no chunk at all, and more
    generally whatever follows the last terminal punctuation mark of the
    input has no influence on the chunks: the result is that of the input
    with this suffix cut off. *)
Theorem splitIntoChunks_ignores_unterminated_suffix
    (pre tail : jsstring) (L : Z) :
  forallb (fun c => negb (is_terminal c)) tail = true ->
  Chunker.splitIntoChunks tail L = [] /\
  Chunker.splitIntoChunks (pre ++ tail) L = Chunker.splitIntoChunks pre L.
Proof.
  intros Ht. unfold Chunker.splitIntoChunks.
  rewrite (Chunker.matchAll_app_tail pre tail Ht).
  rewrite (Chunker.matchAll_no_terminal tail Ht).
  split; reflexivity.
Qed.

Lemma splitIntoChunks_ignores_unterminated_suffix_witness :
  Chunker.splitIntoChunks (str " and then some") 10 = [] /\
  Chunker.splitIntoChunks (str "Stop. Go!" ++ str " and then some") 10
  = Chunker.splitIntoChunks (str "Stop. Go!") 10.
Proof.
  apply (splitIntoChunks_ignores_unterminated_suffix
           (str "Stop. Go!") (str " and then some") 10).
  vm_compute. reflexivity.
Defined.

(** ** Job record and orchestrator *)




(** The guard of [cancelTranslation]: a record that is [completed] or
    [canceled] is left as it is. *)
Lemma cancelTranslation_keeps_terminal user w t :
  db w = Some t -> status t = completed \/ status t = canceled ->
  fst (cancelTranslation user w) = w.
Proof.
  intros Et Hs. unfold cancelTranslation. rewrite Et.
  destruct (negb _); [reflexivity|].
  destruct Hs as [-> | ->]; reflexivity.
Qed.


(** C6 (the code departs from it): no run of [processTranslation] ever
    persists the status [failed] or an error message.  When the reader of
    the source file fails, the run throws, no output file is written, and
    the record stays [processing] without a reason. *)
Theorem processTranslation_never_marks_failed :
  (forall env job schedule,
      Forall (fun t => status t <> failed /\ errorMessage t = None)
        (history (snd (run env job schedule)))) /\
  fst (processTranslation env_unreadable job_pdf)
  = Thrown (str "Failed to extract text: PDF extraction failed: Invalid PDF structure") /\
  option_map (fun t => (status t, errorMessage t))
    (db (snd (processTranslation env_unreadable job_pdf)))
  = Some (processing, None) /\
  outputFiles (snd (processTranslation env_unreadable job_pdf)) = [].
Proof.
  split; [|repeat split; vm_compute; reflexivity].
  intros env job schedule. apply (run_no_failure env job schedule).
Qed.

(** ** Job queue *)




(** ** Provider adapters *)

(** The keys of the Amazon table that are not in lower case are out of
    reach, since the key is put in lower case before the lookup. *)
Lemma amazon_mixed_case_keys_unreachable :
  amazonService.languageMap !! str "zh-CN" = Some (str "zh") /\
  amazonService.mapLanguageCode (str "zh-CN") = str "zh-cn" /\
  amazonService.languageMap !! str "zh-TW" = Some (str "zh-TW") /\
  amazonService.mapLanguageCode (str "zh-TW") = str "zh-tw".
Proof. repeat split; vm_compute; reflexivity. Qed.




(** ** Offline provider *)

(** C9, as the code has it: when the pair is not available, [translate]
    calls [downloadLanguagePair] exactly once, which runs at most one
    installation.  The translation command is run at most once: not at all
    when no installation succeeded, in which case the call throws, and
    exactly once when the installation succeeded and the input file was
    written.  When the translation command fails the call throws and does
    nothing after it. *)
Theorem argos_translate_provisions_once
    (sys : argosService.System) (text sourceLanguage targetLanguage : jsstring) :
  let s := argosService.mapLanguageCode sourceLanguage in
  let t := argosService.mapLanguageCode targetLanguage in
  fst (argosService.isLanguagePairAvailable s t sys []) = Ok false ->
  let outcome :=
    fst (argosService.translate text sourceLanguage targetLanguage sys []) in
  let tr :=
    snd (argosService.translate text sourceLanguage targetLanguage sys []) in
  argosService.count argosService.is_download tr = 1%nat /\
  (argosService.count argosService.is_install tr <= 1)%nat /\
  (argosService.count argosService.is_translation tr <= 1)%nat /\
  (argosService.count argosService.installed_ok tr = 0%nat ->
   argosService.count argosService.is_translation tr = 0%nat /\
   is_throw outcome = true) /\
  (argosService.count argosService.installed_ok tr = 1%nat ->
   argosService.count argosService.input_written tr = 1%nat ->
   argosService.count argosService.is_translation tr = 1%nat) /\
  (argosService.count argosService.translation_failed tr = 1%nat ->
   is_throw outcome = true /\
   exists m,
     last tr = Some (argosService.Did
                       (argosService.exec (argosService.translate_command s t))
                       (Throw m))).
Proof.
  intros s t H outcome tr. subst outcome tr.
  destruct (argosService.translate_run text sourceLanguage targetLanguage sys [])
    as [-> ->].
  exact (argosService.translate_body_unavailable text s t sys H).
Qed.

Lemma argos_translate_provisions_once_witness :
  argosService.count argosService.is_download
    (snd (argosService.translate (str "Hello world.") (str "en") (str "fr")
            system_installable [])) = 1%nat /\
  argosService.count argosService.is_translation
    (snd (argosService.translate (str "Hello world.") (str "en") (str "fr")
            system_installable [])) = 1%nat.
Proof.
  pose proof (argos_translate_provisions_once system_installable
                (str "Hello world.") (str "en") (str "fr")) as H.
  cbv zeta in H.
  assert (Hun : fst (argosService.isLanguagePairAvailable
                       (argosService.mapLanguageCode (str "en"))
                       (argosService.mapLanguageCode (str "fr"))
                       system_installable []) = Ok false)
    by (vm_compute; reflexivity).
  destruct (H Hun) as (H1 & _ & _ & _ & H5 & _).
  split; [exact H1|]. apply H5; vm_compute; reflexivity.
Defined.

(** C9 as stated fails: when the package list does not offer the pair, the
    download is called once and fails, and the translation command is not
    run at all. *)
Lemma argos_translate_not_run_when_download_fails :
  fst (argosService.isLanguagePairAvailable
         (argosService.mapLanguageCode (str "en"))
         (argosService.mapLanguageCode (str "fr")) system_en_de [])
  = Ok false /\
  argosService.count argosService.is_download
    (snd (argosService.translate (str "Hello world.") (str "en") (str "fr")
            system_en_de [])) = 1%nat /\
  argosService.count argosService.is_translation
    (snd (argosService.translate (str "Hello world.") (str "en") (str "fr")
            system_en_de [])) = 0%nat /\
  fst (argosService.translate (str "Hello world.") (str "en") (str "fr")
         system_en_de [])
  = Throw (str "Argos Translate failed: Failed to download language pair: No package available for en -> fr").
Proof. repeat split; vm_compute; reflexivity. Qed.

(** * More of the chunker *)

(** What stops a run is a character outside the class. *)
Lemma span_rest_head p s c r :
  snd (Chunker.span p s) = c :: r -> p c = false.
Proof.
  induction s as [|d s IH]; simpl; [discriminate|].
  destruct (p d) eqn:E.
  - destruct (Chunker.span p s); simpl in *. exact IH.
  - simpl. intros H. injection H as <- _. exact E.
Qed.

(** The text does not begin with a terminal punctuation mark. *)
Definition starts_clean (text : jsstring) : bool :=
  match text with
  | c :: _ => negb (is_terminal c)
  | [] => true
  end.

(** The text ends with a terminal punctuation mark, if it is not empty. *)
Definition ends_terminated (text : jsstring) : bool :=
  match last text with
  | Some c => is_terminal c
  | None => true
  end.

(** A match leaves a rest that does not begin with a terminal mark. *)
Lemma match_at_rest_clean s m rest :
  Chunker.match_at s = Some (m, rest) -> starts_clean rest = true.
Proof.
  unfold Chunker.match_at.
  destruct (Chunker.span (fun c => negb (is_terminal c)) s) as [body r1].
  pose proof (span_rest_head is_terminal r1) as Hhead.
  destruct (Chunker.span is_terminal r1) as [punct r2]. simpl in Hhead.
  destruct body as [|b body]; [discriminate|].
  destruct punct as [|q punct]; [discriminate|].
  intros H. injection H as _ <-.
  destruct r2 as [|x r2]; [reflexivity|].
  simpl. now rewrite (Hhead x r2 eq_refl).
Qed.

(** Where no match starts at a character that is not a terminal mark, there
    is no terminal mark at all. *)
Lemma match_at_None_clean c r :
  is_terminal c = false -> Chunker.match_at (c :: r) = None ->
  forallb (fun c => negb (is_terminal c)) (c :: r) = true.
Proof.
  intros Hc. unfold Chunker.match_at.
  pose proof (Chunker.span_app (fun c => negb (is_terminal c)) (c :: r)) as A.
  pose proof (Chunker.span_fst_forall (fun c => negb (is_terminal c)) (c :: r)) as F.
  pose proof (span_rest_head (fun c => negb (is_terminal c)) (c :: r)) as Hhead.
  destruct (Chunker.span (fun c => negb (is_terminal c)) (c :: r))
    as [body r1] eqn:E.
  simpl in A, F, Hhead.
  assert (Hb : body <> []).
  { simpl in E. rewrite Hc in E. simpl in E.
    destruct (Chunker.span _ r). injection E as <- _. discriminate. }
  destruct r1 as [|q r1].
  - intros _. rewrite app_nil_r in A. now rewrite <- A.
  - specialize (Hhead q r1 eq_refl). apply negb_false_iff in Hhead.
    simpl. rewrite Hhead. simpl.
    destruct (Chunker.span is_terminal r1).
    destruct body; [congruence | discriminate].
Qed.

Lemma matchAll_clean_text s :
  starts_clean s = true ->
  exists tail,
    s = concat (Chunker.matchAll s) ++ tail /\
    forallb (fun c => negb (is_terminal c)) tail = true.
Proof.
  apply (Chunker.matchAll_rect
           (fun s l => starts_clean s = true ->
                       exists tail, s = concat l ++ tail /\
                         forallb (fun c => negb (is_terminal c)) tail = true)).
  - intros _. now exists [].
  - intros c r m rest E IH _.
    destruct (IH (match_at_rest_clean _ _ _ E)) as (tail & Hrest & Htail).
    exists tail. split; [|exact Htail].
    apply Chunker.match_at_Some in E as (body & punct & _ & Hs & _).
    rewrite Hs. cbn [concat]. rewrite <- app_assoc. now rewrite <- Hrest.
  - intros c r E _ Hc. simpl in Hc. apply negb_true_iff in Hc.
    pose proof (match_at_None_clean c r Hc E) as Hall.
    assert (Hr : forallb (fun c => negb (is_terminal c)) r = true).
    { simpl in Hall. now apply andb_prop in Hall as [_ Hall]. }
    rewrite (Chunker.matchAll_no_terminal r Hr). now exists (c :: r).
Qed.

(** Leading terminal marks start no match. *)
Lemma matchAll_skip_terminals pre s :
  forallb is_terminal pre = true ->
  Chunker.matchAll (pre ++ s) = Chunker.matchAll s.
Proof.
  induction pre as [|c pre IH]; [reflexivity|].
  simpl. intros H. apply andb_prop in H as [Hc H].
  rewrite Chunker.matchAll_cons.
  unfold Chunker.match_at. simpl. rewrite Hc. simpl. rewrite Hc.
  destruct (Chunker.span is_terminal (pre ++ s)). now apply IH.
Qed.

(** The body of the loop of [splitIntoChunks] on a sentence within the
    limit: the chunks so far and the current chunk hold the same text as
    before, with the sentence at its end. *)
Definition text_in_chunks (st : list jsstring * Chunker.jsval) : jsstring :=
  concat (fst st) ++ Chunker.js_add (snd st) [].

Lemma splitIntoChunks_step_short chunkSize st sentence :
  (Z.of_nat (length sentence) <= chunkSize)%Z ->
  (exists c, snd st = Chunker.JString c) ->
  (exists c, snd (Chunker.splitIntoChunks_step chunkSize st sentence)
             = Chunker.JString c) /\
  text_in_chunks (Chunker.splitIntoChunks_step chunkSize st sentence)
  = text_in_chunks st ++ sentence.
Proof.
  intros Hlen [c Hc]. destruct st as [chunks v]. simpl in Hc. subst v.
  unfold text_in_chunks, Chunker.splitIntoChunks_step.
  destruct (Z.of_nat (length (Chunker.js_add (Chunker.JString c) sentence))
            <=? chunkSize)%Z; cbn [fst snd Chunker.js_add].
  - split; [eexists; reflexivity|]. Chunker.text_norm. reflexivity.
  - destruct (chunkSize <? Z.of_nat (length sentence))%Z eqn:E;
      [apply Z.ltb_lt in E; lia|].
    cbn [fst snd Chunker.js_add]. split; [eexists; reflexivity|].
    rewrite Chunker.concat_push_if_truthy. Chunker.text_norm. reflexivity.
Qed.

Lemma splitIntoChunks_short_sentences text L :
  (forall sentence, In sentence (Chunker.matchAll text) ->
                    (Z.of_nat (length sentence) <= L)%Z) ->
  concat (Chunker.splitIntoChunks text L) = concat (Chunker.matchAll text).
Proof.
  intros Hall. unfold Chunker.splitIntoChunks.
  destruct (Chunker.fold_left_measure (Chunker.splitIntoChunks_step L)
              (fun st => exists c, snd st = Chunker.JString c) text_in_chunks
              (fun s => s) (Chunker.matchAll text))
    with (a := (@nil jsstring, Chunker.JString [])) as [[c Hc] E].
  - intros a b Hb Ha. apply splitIntoChunks_step_short; [|exact Ha].
    now apply Hall.
  - eexists; reflexivity.
  - destruct (fold_left _ _ _) as [chunks v]. simpl in Hc. subst v.
    rewrite Chunker.concat_push_if_truthy.
    unfold text_in_chunks in E. cbn [fst snd Chunker.js_add concat app] in E.
    rewrite app_nil_r in E. rewrite E. now rewrite List.map_id.
Qed.

(** No chunk is empty. *)
Definition no_empty_chunk (st : list jsstring * Chunker.jsval) : Prop :=
  Forall (fun c => c <> []) (fst st).

Lemma push_if_truthy_not_empty chunks v :
  Forall (fun c : jsstring => c <> []) chunks ->
  Forall (fun c : jsstring => c <> []) (Chunker.push_if_truthy chunks v).
Proof.
  intros H. destruct v as [|c]; [exact H|]. simpl.
  destruct c as [|x c]; [exact H|]. simpl.
  apply Forall_app. split; [exact H|]. constructor; [discriminate|constructor].
Qed.

Lemma splitLongSentence_not_empty sentence chunkSize :
  Forall (fun c : jsstring => c <> [])
    (Chunker.splitLongSentence sentence chunkSize).
Proof.
  unfold Chunker.splitLongSentence.
  assert (Inv : Forall (fun c : jsstring => c <> [])
                  (fst (fold_left (Chunker.splitLongSentence_step chunkSize)
                          (Chunker.split_ws sentence) ([], [])))).
  { apply (fold_left_invariant (Chunker.splitLongSentence_step chunkSize)
             (fun st => Forall (fun c : jsstring => c <> []) (fst st))).
    - intros [chunks cur] word _ Ha. unfold Chunker.splitLongSentence_step.
      destruct (_ <=? _)%Z; cbn [fst snd] in *; [exact Ha|].
      exact (push_if_truthy_not_empty chunks (Chunker.JString cur) Ha).
    - constructor. }
  destruct (fold_left _ _ _) as [chunks cur]. simpl in Inv.
  exact (push_if_truthy_not_empty chunks (Chunker.JString cur) Inv).
Qed.

Lemma removelast_incl {A} (l : list A) x : In x (List.removelast l) -> In x l.
Proof.
  induction l as [|a l IH]; [intros []|].
  simpl. destruct l as [|b l]; [intros []|].
  intros [<-|H]; [now left | right; now apply IH].
Qed.

Lemma splitIntoChunks_step_not_empty chunkSize st sentence :
  no_empty_chunk st ->
  no_empty_chunk (Chunker.splitIntoChunks_step chunkSize st sentence).
Proof.
  destruct st as [chunks v]. unfold no_empty_chunk, Chunker.splitIntoChunks_step.
  cbn [fst]. intros H.
  destruct (_ <=? _)%Z; cbn [fst]; [exact H|].
  destruct (_ <? _)%Z; cbn [fst].
  - apply Forall_app. split; [now apply push_if_truthy_not_empty|].
    apply List.Forall_forall. intros x Hx. apply removelast_incl in Hx.
    pose proof (splitLongSentence_not_empty sentence chunkSize) as Hall.
    rewrite List.Forall_forall in Hall. now apply Hall.
  - now apply push_if_truthy_not_empty.
Qed.

(** A loop that only ever extends the current chunk. *)
Lemma splitIntoChunks_loop_fits L sentences :
  forall c,
    (Z.of_nat (length (c ++ concat sentences)) <= L)%Z ->
    fold_left (Chunker.splitIntoChunks_step L) sentences ([], Chunker.JString c)
    = ([], Chunker.JString (c ++ concat sentences)).
Proof.
  induction sentences as [|s l IH]; intros c Hlen; simpl.
  - now rewrite app_nil_r.
  - simpl in Hlen.
    assert (Hs : (Z.of_nat (length (c ++ s)) <=? L)%Z = true).
    { apply Z.leb_le. rewrite !length_app in *. lia. }
    unfold Chunker.splitIntoChunks_step at 1. cbn [Chunker.js_add].
    rewrite Hs. rewrite IH; rewrite <- app_assoc; [reflexivity | exact Hlen].
Qed.

(** * More of the file readers and writers *)

Lemma starts_with_app prefix s : starts_with prefix (prefix ++ s) = true.
Proof.
  induction prefix as [|c prefix IH]; [reflexivity|].
  simpl. now rewrite N.eqb_refl, IH.
Qed.

Lemma lower_upper_char c : lower_char (upper_char c) = lower_char c.
Proof.
  unfold lower_char, upper_char.
  destruct ((97 <=? c)%N && (c <=? 122)%N) eqn:E.
  - apply andb_prop in E as [E1 E2]. apply N.leb_le in E1, E2.
    assert (H1 : ((65 <=? c - 32)%N && (c - 32 <=? 90)%N) = true).
    { apply andb_true_intro. split; apply N.leb_le; lia. }
    assert (H2 : ((65 <=? c)%N && (c <=? 90)%N) = false).
    { apply andb_false_intro2. apply N.leb_gt. lia. }
    rewrite H1, H2. lia.
  - reflexivity.
Qed.

Lemma toLowerCase_toUpperCase s : toLowerCase (toUpperCase s) = toLowerCase s.
Proof.
  unfold toLowerCase, toUpperCase. rewrite List.map_map.
  apply List.map_ext. apply lower_upper_char.
Qed.

(** [text.replace(/<[^>]*>/g, ' ')] of [extractFromEPUB].  [pending] holds
    the characters read since a ['<'] that is not closed yet: a ['>'] turns
    them into one space, and at the end of the text they are kept, as no
    match starts at a ['<'] that no ['>'] follows. *)
Fixpoint replace_tags_from (pending : option jsstring) (s : jsstring)
    : jsstring :=
  match s with
  | [] => match pending with Some kept => kept | None => [] end
  | c :: r =>
      match pending with
      | None =>
          if (c =? 60)%N then replace_tags_from (Some [c]) r
          else c :: replace_tags_from None r
      | Some kept =>
          if (c =? 62)%N then 32%N :: replace_tags_from None r
          else replace_tags_from (Some (kept ++ [c])) r
      end
  end.
Definition replace_tags (s : jsstring) : jsstring := replace_tags_from None s.

(** [s.replace(/\s+/g, ' ')]: every maximal run of white space becomes one
    space. *)
Fixpoint collapse_from (prev_space : bool) (s : jsstring) : jsstring :=
  match s with
  | [] => []
  | c :: r =>
      if is_space c then
        if prev_space then collapse_from true r
        else 32%N :: collapse_from true r
      else c :: collapse_from false r
  end.
Definition collapse_spaces (s : jsstring) : jsstring := collapse_from false s.

(** [String.prototype.trim]: white space and line terminators are removed
    at both ends; they are the characters of [\s]. *)
Fixpoint trimStart (s : jsstring) : jsstring :=
  match s with
  | [] => []
  | c :: r => if is_space c then trimStart r else s
  end.
Definition trim (s : jsstring) : jsstring := rev (trimStart (rev (trimStart s))).

(** The text of one chapter in [extractFromEPUB]:
    [text.replace(/<[^>]*>/g, ' ').replace(/\s+/g, ' ').trim()]. *)
Definition plainText (text : jsstring) : jsstring :=
  trim (collapse_spaces (replace_tags text)).

(** No white space character follows another one; [prev] tells that the
    character before the text is white space. *)
Fixpoint no_double (prev : bool) (s : jsstring) : bool :=
  match s with
  | [] => true
  | c :: r =>
      if is_space c then negb prev && no_double true r else no_double false r
  end.

Lemma collapse_from_no_double b s : no_double b (collapse_from b s) = true.
Proof.
  revert b. induction s as [|c r IH]; intros b; simpl; [reflexivity|].
  destruct (is_space c) eqn:E.
  - destruct b; [apply IH|]. simpl. apply IH.
  - simpl. rewrite E. apply IH.
Qed.

Lemma collapse_from_spaces b s c :
  In c (collapse_from b s) -> is_space c = true -> c = 32%N.
Proof.
  revert b. induction s as [|d r IH]; intros b; simpl; [intros []|].
  destruct (is_space d) eqn:E.
  - destruct b; [apply IH|]. intros [<-|H]; [reflexivity | now apply (IH true)].
  - intros [<-|H] Hc; [congruence | now apply (IH false)].
Qed.

Lemma no_double_adjacent p l1 a b l2 :
  no_double p (l1 ++ a :: b :: l2) = true ->
  is_space a = true -> is_space b = false.
Proof.
  revert p. induction l1 as [|x l1 IH]; intros p; simpl.
  - intros H Ha. rewrite Ha in H. apply andb_prop in H as [_ H].
    destruct (is_space b); [discriminate | reflexivity].
  - destruct (is_space x).
    + intros H. apply andb_prop in H as [_ H]. now apply (IH true).
    + apply IH.
Qed.

Lemma trimStart_suffix s : exists ws, s = ws ++ trimStart s.
Proof.
  induction s as [|c r [ws IH]]; [now exists []|].
  simpl. destruct (is_space c); [|now exists []].
  exists (c :: ws). simpl. now rewrite <- IH.
Qed.

Lemma trimStart_head s c r : trimStart s = c :: r -> is_space c = false.
Proof.
  induction s as [|d s IH]; simpl; [discriminate|].
  destruct (is_space d) eqn:E; [exact IH|].
  intros H. injection H as <- _. exact E.
Qed.

(** The trimmed text sits inside the text, and has no white space at either
    end. *)
Lemma trim_inside s :
  (exists before after, s = before ++ trim s ++ after) /\
  (forall c r, trim s = c :: r -> is_space c = false) /\
  (forall c l, trim s = l ++ [c] -> is_space c = false).
Proof.
  unfold trim.
  destruct (trimStart_suffix s) as [ws Hs].
  destruct (trimStart_suffix (rev (trimStart s))) as [ws' Hr].
  assert (Hu : trimStart s
               = rev (trimStart (rev (trimStart s))) ++ rev ws').
  { rewrite <- rev_app_distr, <- Hr. now rewrite rev_involutive. }
  split; [|split].
  - exists ws, (rev ws'). now rewrite <- Hu.
  - intros c r H. rewrite H in Hu. simpl in Hu.
    now apply (trimStart_head s c (r ++ rev ws')).
  - intros c l H.
    apply (trimStart_head (rev (trimStart s)) c (rev l)).
    rewrite <- (rev_involutive (trimStart (rev (trimStart s)))), H.
    rewrite rev_app_distr. reflexivity.
Qed.

Lemma strip_ws_collapse b s :
  Chunker.strip_ws (collapse_from b s) = Chunker.strip_ws s.
Proof.
  revert b. induction s as [|c r IH]; intros b; simpl; [reflexivity|].
  destruct (is_space c) eqn:E; simpl.
  - destruct b; simpl; apply IH.
  - rewrite E. simpl. now rewrite IH.
Qed.

Lemma strip_ws_trimStart s : Chunker.strip_ws (trimStart s) = Chunker.strip_ws s.
Proof.
  induction s as [|c r IH]; [reflexivity|].
  simpl. destruct (is_space c) eqn:E; simpl; [exact IH|].
  now rewrite E.
Qed.

Lemma strip_ws_rev s : Chunker.strip_ws (rev s) = rev (Chunker.strip_ws s).
Proof.
  induction s as [|c r IH]; [reflexivity|].
  simpl. rewrite Chunker.strip_ws_app, IH. simpl.
  destruct (is_space c); simpl; [now rewrite app_nil_r | reflexivity].
Qed.

Lemma replace_tags_no_tag s :
  forallb (fun c => negb (c =? 60)%N) s = true ->
  replace_tags_from None s = s.
Proof.
  induction s as [|c r IH]; [reflexivity|].
  simpl. destruct (c =? 60)%N; simpl; [discriminate|].
  intros H. now rewrite IH.
Qed.

(** * More of the provider adapters *)






















(** * More of the orchestrator *)

(** The chunks of a job, the answer of the provider to its [j]-th call, and
    the translation it holds. *)
Definition chunks_of (env : Env) (job : Job) : list jsstring :=
  match extractText (extractFrom env) (fileFormat job) with
  | Ok text => Chunker.splitIntoChunks text 1000
  | Throw _ => []
  end.

Definition answer (env : Env) (job : Job) (j : nat) : result jsstring :=
  provider env j (nth j (chunks_of env job) []).

Definition translation (env : Env) (job : Job) (j : nat) : jsstring :=
  match answer env job j with
  | Ok translatedText => translatedText
  | Throw _ => []
  end.

Definition translations (env : Env) (job : Job) (i : nat) : list jsstring :=
  List.map (translation env job) (seq 0 i).

Definition translated_upto (env : Env) (job : Job) (i : nat) : Prop :=
  forall j, (j < i)%nat -> is_throw (answer env job j) = false.

(** The checks of [Translation.create]. *)
Definition valid_job (job : Job) : bool :=
  bool_decide (In (fileFormat job) fileFormat_enum)
  && bool_decide (In (service job) service_enum).

(** The record as created, and after [i] of [n] chunks. *)
Definition fresh_record (job : Job) : Translation :=
  mkTranslation (job_userId job) processing 0 0 0 None None None false.

Definition record_at (job : Job) (n i : nat) : Translation :=
  mkTranslation (job_userId job) processing
    (round_percent (Z.of_nat i) (Z.of_nat n)) (Z.of_nat n) (Z.of_nat i)
    None None None false.

Definition shape (w : World) (record : option Translation)
    (files chunks : list jsstring) : Prop :=
  db w = record /\ outputFiles w = files /\ submitted w = chunks.

(** Where a run that no request interferes with can be, and what the world
    then looks like. *)
Definition exact (env : Env) (job : Job) (c : Pc * World) : Prop :=
  let C := chunks_of env job in
  let n := length C in
  let extracted :=
    is_throw (extractText (extractFrom env) (fileFormat job)) = false in
  let converted :=
    convertToTargetFormat (writeAs env) (concat (translations env job n))
      (fileFormat job) in
  match fst c with
  | AtCreate => shape (snd c) None [] []
  | AtExtract =>
      valid_job job = true /\ shape (snd c) (Some (fresh_record job)) [] []
  | AtTotals chunks =>
      valid_job job = true /\ extracted /\ chunks = C /\
      shape (snd c) (Some (fresh_record job)) [] []
  | AtTranslate chunks i acc =>
      valid_job job = true /\ extracted /\ chunks = C /\ (i < n)%nat /\
      translated_upto env job i /\ acc = translations env job i /\
      shape (snd c) (Some (record_at job n i)) [] (firstn i C)
  | AtProgress chunks i acc =>
      valid_job job = true /\ extracted /\ chunks = C /\ (i < n)%nat /\
      translated_upto env job (S i) /\ acc = translations env job (S i) /\
      shape (snd c) (Some (record_at job n i)) [] (firstn (S i) C)
  | AtConvert text =>
      valid_job job = true /\ extracted /\ translated_upto env job n /\
      text = concat (translations env job n) /\
      shape (snd c) (Some (record_at job n n)) [] C
  | AtComplete =>
      valid_job job = true /\ extracted /\ translated_upto env job n /\
      is_throw converted = false /\
      shape (snd c) (Some (record_at job n n)) [outputPath job] C
  | Returned =>
      valid_job job = true /\ extracted /\ translated_upto env job n /\
      is_throw converted = false /\
      shape (snd c)
        (Some (set_completed (outputPath job) (outputFileName job)
                 (record_at job n n)))
        [outputPath job] C
  | Thrown message =>
      (valid_job job = false /\
       message = str "Translation validation failed" /\
       shape (snd c) None [] []) \/
      (valid_job job = true /\
       extractText (extractFrom env) (fileFormat job) = Throw message /\
       shape (snd c) (Some (fresh_record job)) [] []) \/
      (valid_job job = true /\ extracted /\
       exists k, (k < n)%nat /\ translated_upto env job k /\
                 answer env job k = Throw message /\
                 shape (snd c) (Some (record_at job n k)) [] (firstn (S k) C)) \/
      (valid_job job = true /\ extracted /\ translated_upto env job n /\
       converted = Throw message /\
       shape (snd c) (Some (record_at job n n)) [] C)
  end.


















(** * More of the job record *)


















(** * More of the controller ([translationController]) *)

(** [path.extname] of a file name without directory part. *)
Definition extname (fileName : jsstring) : jsstring :=
  if bool_decide (fileName = str "..") then []
  else snd (split_extension fileName).

(** The list [supportedFormats] of [startTranslation]. *)
Definition supportedFormats : list jsstring :=
  [str "pdf"; str "epub"; str "txt"; str "docx"].

(** What [startTranslation] reads of the request: the name of the uploaded
    file, if there is one, the user, and the three fields of the form, each
    a string or undefined. *)
Record StartRequest := mkStartRequest {
  file_originalname : option jsstring;
  user_id : jsstring;
  body_sourceLanguage : option jsstring;
  body_targetLanguage : option jsstring;
  body_service : option jsstring
}.

(** The answer of [startTranslation]: status 400 with an error, or status
    202 with the job whose run was started. *)
Inductive StartResponse :=
| BadRequest (error : jsstring)
| Accepted (job : Job).

(** [startTranslation(req, res)].  The extension is put in lower case on its
    ASCII letters; this decides the format as JavaScript does, as no other
    character has a lower case among the letters of the four formats. *)
Definition startTranslation (req : StartRequest) : StartResponse :=
  match file_originalname req with
  | None => BadRequest (str "No file uploaded")
  | Some originalname =>
      match body_sourceLanguage req, body_targetLanguage req,
            body_service req with
      | Some sourceLanguage, Some targetLanguage, Some service =>
          if negb (truthy sourceLanguage) || negb (truthy targetLanguage)
             || negb (truthy service)
          then BadRequest (str "Missing required parameters")
          else
            let fileExtension := toLowerCase (extname originalname) in
            let fileFormat := skipn 1 fileExtension in
            if negb (bool_decide (In fileFormat supportedFormats))
            then BadRequest (str "Unsupported file format")
            else Accepted (mkJob (user_id req) sourceLanguage targetLanguage
                             originalname fileFormat service)
      | _, _, _ => BadRequest (str "Missing required parameters")
      end
  end.


Lemma format_of_supported fileFormat :
  In fileFormat supportedFormats -> format_of fileFormat <> None.
Proof.
  intros [<-|[<-|[<-|[<-|[]]]]]; vm_compute; discriminate.
Qed.




(** * More of the Argos adapter *)

(** The events of the provisioning: the probes, the call of
    [downloadLanguagePair] and the installation. *)
Definition provisioning (e : argosService.Event) : bool :=
  argosService.quiet e || argosService.is_download e
  || argosService.is_install e.

Definition is_unlink (e : argosService.Event) : bool :=
  match e with
  | argosService.Did (argosService.unlink _) _ => true
  | _ => false
  end.

Definition unlink_failed (e : argosService.Event) : bool :=
  match e with
  | argosService.Did (argosService.unlink _) (Throw _) => true
  | _ => false
  end.

(** The five events of a translation whose file was read. *)
Definition translation_events (text s t : jsstring)
    (o1 o2 out : jsstring) (a4 a5 : result jsstring)
    : list argosService.Event :=
  [ argosService.Did (argosService.writeFile argosService.tempInputPath text)
      (Ok o1);
    argosService.Did (argosService.exec (argosService.translate_command s t))
      (Ok o2);
    argosService.Did (argosService.readFile argosService.tempOutputPath)
      (Ok out);
    argosService.Did (argosService.unlink argosService.tempInputPath) a4;
    argosService.Did (argosService.unlink argosService.tempOutputPath) a5 ].

(** The steps after the provisioning either stop at the first call that
    fails, before any removal, or read the file and try both removals. *)
Lemma translation_steps_cases text s t sys tr :
  exists r ext,
    argosService.translation_steps text s t sys tr = (r, tr ++ ext) /\
    ((is_throw r = true /\ Forall (fun e => is_unlink e = false) ext) \/
     (exists o1 o2 out a4 a5,
         ext = translation_events text s t o1 o2 out a4 a5 /\
         ((is_throw a4 = false /\ is_throw a5 = false /\ r = Ok out) \/
          ((is_throw a4 = true \/ is_throw a5 = true) /\ is_throw r = true)))).
Proof.
  unfold argosService.translation_steps, argosService.bind, argosService.await,
    argosService.ret, argosService.unlink_both.
  destruct (sys tr (argosService.writeFile argosService.tempInputPath text))
    as [o1|m1] eqn:E1.
  2:{ eexists _, [_]. split; [reflexivity|]. left.
      split; [reflexivity|]. repeat constructor. }
  destruct (sys _ (argosService.exec (argosService.translate_command s t)))
    as [o2|m2] eqn:E2.
  2:{ eexists _, [_; _]. rewrite <- app_assoc. split; [reflexivity|]. left.
      split; [reflexivity|]. repeat constructor. }
  destruct (sys _ (argosService.readFile argosService.tempOutputPath))
    as [o3|m3] eqn:E3.
  2:{ eexists _, [_; _; _]. rewrite <- !app_assoc. split; [reflexivity|].
      left. split; [reflexivity|]. repeat constructor. }
  destruct (sys _ (argosService.unlink argosService.tempInputPath))
    as [o4|m4] eqn:E4;
    destruct (sys _ (argosService.unlink argosService.tempOutputPath))
      as [o5|m5] eqn:E5;
    (eexists _, (translation_events text s t o1 o2 o3 _ _);
     unfold translation_events; rewrite <- !app_assoc;
     split; [reflexivity|]; right; eexists _, _, _, _, _;
     split; [reflexivity|]; cbn;
     solve [ left; now repeat split
           | right; split; [now left|reflexivity]
           | right; split; [now right|reflexivity] ]).
Qed.

Lemma provisioning_quiet ext :
  Forall (fun e => argosService.quiet e = true) ext ->
  Forall (fun e => provisioning e = true) ext.
Proof.
  apply List.Forall_impl. intros e H. unfold provisioning. now rewrite H.
Qed.

(** The [try] block of [translate]: the provisioning, which may fail, and
    then the translation steps. *)
Lemma translate_body_cases text s t sys :
  exists pre,
    Forall (fun e => provisioning e = true) pre /\
    ((exists m, argosService.translate_body text s t sys [] = (Throw m, pre)) \/
     argosService.translate_body text s t sys []
     = argosService.translation_steps text s t sys pre).
Proof.
  unfold argosService.translate_body, argosService.bind.
  destruct (argosService.isLanguagePairAvailable_run s t sys [])
    as (b & ext0 & E0 & Q0).
  rewrite E0. cbn [app]. destruct b; cbn [negb].
  - exists ext0. split; [now apply provisioning_quiet|]. right. reflexivity.
  - destruct (argosService.downloadLanguagePair_run s t sys ext0)
      as (r1 & probes & rest & E1 & Q1 & Hrest).
    rewrite E1.
    exists (ext0 ++ argosService.Called_downloadLanguagePair s t
                 :: probes ++ rest).
    split.
    + apply Forall_app. split; [now apply provisioning_quiet|].
      constructor; [reflexivity|].
      apply Forall_app. split; [now apply provisioning_quiet|].
      destruct Hrest as [[-> _]|(packageId & answer & -> & _)];
        repeat constructor.
    + destruct r1 as [[]|m]; [now right|]. left. now exists m.
Qed.

(** [translate] returns what its [try] block returns, and throws when the
    block throws, after the same calls. *)
Lemma translate_of_body text sourceLanguage targetLanguage sys tr :
  let body := argosService.translate_body text
                (argosService.mapLanguageCode sourceLanguage)
                (argosService.mapLanguageCode targetLanguage) sys tr in
  snd (argosService.translate text sourceLanguage targetLanguage sys tr)
  = snd body /\
  (forall out,
      fst (argosService.translate text sourceLanguage targetLanguage sys tr)
      = Ok out <-> fst body = Ok out).
Proof.
  rewrite argosService.translate_unfold. unfold argosService.try_catch.
  fold (argosService.translate_body text
          (argosService.mapLanguageCode sourceLanguage)
          (argosService.mapLanguageCode targetLanguage)).
  cbv zeta.
  destruct (argosService.translate_body _ _ _ sys tr) as [[a|m] tr'];
    [now split|].
  destruct (argosService.translate_handler_throws sourceLanguage
              targetLanguage m sys tr') as [m' ->].
  split; [reflexivity|]. intros out. cbn. split; discriminate.
Qed.

Lemma provisioning_no_unlink pre :
  Forall (fun e => provisioning e = true) pre ->
  Forall (fun e => is_unlink e = false) pre.
Proof.
  apply List.Forall_impl.
  intros [? ?|[[| | |]| | |] ?]; cbn; intros H; try reflexivity; discriminate.
Qed.


(** Argos is installed and lists the pair, but the translation command
    fails. *)
Definition system_failing_command : argosService.System :=
  fun _ request =>
    match request with
    | argosService.exec argosService.which_argos_translate =>
        Ok (str "/usr/bin/argos-translate")
    | argosService.exec argosService.list_available_packages =>
        Ok (str "translate-en_de  en -> de")
    | argosService.exec (argosService.translate_command _ _) =>
        Throw (str "Command failed: argos-translate")
    | _ => Ok []
    end.

(** Argos is not installed: [which] finds nothing. *)
Definition system_without_argos : argosService.System :=
  fun _ request =>
    match request with
    | argosService.exec _ => Throw (str "Command failed: which argos-translate")
    | _ => Ok []
    end.


Lemma splitIntoChunks_chunks_not_empty text L :
  Forall (fun chunk : jsstring => chunk <> []) (Chunker.splitIntoChunks text L).
Proof.
  unfold Chunker.splitIntoChunks.
  assert (Inv : no_empty_chunk
                  (fold_left (Chunker.splitIntoChunks_step L)
                     (Chunker.matchAll text) ([], Chunker.JString []))).
  { apply (fold_left_invariant (Chunker.splitIntoChunks_step L) no_empty_chunk).
    - intros a b _. apply splitIntoChunks_step_not_empty.
    - constructor. }
  destruct (fold_left _ _ _) as [chunks v].
  now apply push_if_truthy_not_empty.
Qed.



(** * Further properties *)

(** ** Chunker *)

(** X1: the sentences that [splitIntoChunks] works on cover the text but for
    the terminal punctuation marks it begins with and the text behind its
    last terminal mark: the text is some terminal marks, then the matches of
    the sentence pattern one after the other, then text without terminal
    mark. *)
Theorem matchAll_covers_text (text : jsstring) :
  exists pre tail,
    text = pre ++ concat (Chunker.matchAll text) ++ tail /\
    forallb is_terminal pre = true /\
    forallb (fun c => negb (is_terminal c)) tail = true.
Proof.
  pose proof (Chunker.span_app is_terminal text) as A.
  pose proof (Chunker.span_fst_forall is_terminal text) as F.
  pose proof (span_rest_head is_terminal text) as Hhead.
  destruct (Chunker.span is_terminal text) as [pre s]. simpl in A, F, Hhead.
  assert (Hs : starts_clean s = true).
  { destruct s as [|c r]; [reflexivity|]. simpl.
    now rewrite (Hhead c r eq_refl). }
  destruct (matchAll_clean_text s Hs) as (tail & Es & Htail).
  exists pre, tail. rewrite <- A at 1.
  rewrite <- A, (matchAll_skip_terminals pre s F), <- Es. auto.
Qed.

(** X2: when the text does not begin with a terminal punctuation mark, ends
    with one, and none of its sentences is longer than the limit, the chunks
    of [splitIntoChunks] put one after the other are the text itself, white
    space included. *)
Theorem splitIntoChunks_round_trip (text : jsstring) (L : Z) :
  starts_clean text = true ->
  ends_terminated text = true ->
  (forall sentence, In sentence (Chunker.matchAll text) ->
                    (Z.of_nat (length sentence) <= L)%Z) ->
  concat (Chunker.splitIntoChunks text L) = text.
Proof.
  intros Hstart Hend Hall.
  rewrite (splitIntoChunks_short_sentences text L Hall).
  destruct (matchAll_clean_text text Hstart) as (tail & Et & Htail).
  destruct tail as [|c tail]; [now rewrite app_nil_r in Et|].
  exfalso. unfold ends_terminated in Hend. rewrite Et in Hend.
  rewrite last_app in Hend.
  destruct (last (c :: tail)) as [x|] eqn:El; [|now apply last_None in El].
  apply last_Some in El as [l' El].
  assert (Hx : In x (c :: tail)).
  { rewrite El. apply in_or_app. right. now left. }
  rewrite forallb_forall in Htail. specialize (Htail x Hx).
  rewrite Hend in Htail. discriminate.
Qed.

Lemma splitIntoChunks_round_trip_witness :
  concat (Chunker.splitIntoChunks (str "Stop. Go on! Why?") 12)
  = str "Stop. Go on! Why?".
Proof.
  apply (splitIntoChunks_round_trip (str "Stop. Go on! Why?") 12).
  - vm_compute. reflexivity.
  - vm_compute. reflexivity.
  - intros sentence H. vm_compute in H.
    destruct H as [<-|[<-|[<-|[]]]]; vm_compute; discriminate.
Defined.

(** X3: [splitIntoChunks] never produces an empty chunk, whatever the text
    and the limit. *)
Theorem splitIntoChunks_no_empty_chunk (text : jsstring) (L : Z) :
  Forall (fun chunk : jsstring => chunk <> []) (Chunker.splitIntoChunks text L).
Proof. exact (splitIntoChunks_chunks_not_empty text L). Qed.

(** X4: a text whose sentences fit the limit together is one chunk, made of
    its sentences. *)
Theorem splitIntoChunks_single_chunk (text : jsstring) (L : Z) :
  Chunker.matchAll text <> [] ->
  (Z.of_nat (length (concat (Chunker.matchAll text))) <= L)%Z ->
  Chunker.splitIntoChunks text L = [concat (Chunker.matchAll text)].
Proof.
  intros Hne Hlen. unfold Chunker.splitIntoChunks.
  rewrite (splitIntoChunks_loop_fits L (Chunker.matchAll text) [] Hlen).
  cbn [app Chunker.push_if_truthy].
  destruct (Chunker.matchAll text) as [|m l] eqn:E; [congruence|].
  assert (Hm : existsb is_terminal m = true).
  { apply (Chunker.matchAll_has_terminal text). rewrite E. now left. }
  destruct m as [|c m]; [discriminate|]. reflexivity.
Qed.

Lemma splitIntoChunks_single_chunk_witness :
  Chunker.splitIntoChunks (str "..Stop. Go on! and") 1000
  = [concat (Chunker.matchAll (str "..Stop. Go on! and"))].
Proof.
  apply (splitIntoChunks_single_chunk (str "..Stop. Go on! and") 1000).
  - vm_compute. discriminate.
  - vm_compute. discriminate.
Defined.

(** ** File readers *)

(** X5: the text that [extractFromEPUB] makes of a chapter has no white
    space but single spaces between other characters: every white space
    character in it is a space, no two of them are neighbours, and the text
    neither begins nor ends with one.  Apart from white space it is the
    chapter with each tag replaced by a space; a chapter without ['<'] keeps
    all its other characters. *)
Theorem plainText_normalizes_white_space (text : jsstring) :
  (forall c, In c (plainText text) -> is_space c = true -> c = 32%N) /\
  (forall l1 a b l2,
      plainText text = l1 ++ a :: b :: l2 ->
      is_space a = true -> is_space b = false) /\
  (forall c r, plainText text = c :: r -> is_space c = false) /\
  (forall c l, plainText text = l ++ [c] -> is_space c = false) /\
  Chunker.strip_ws (plainText text) = Chunker.strip_ws (replace_tags text) /\
  (forallb (fun c => negb (c =? 60)%N) text = true ->
   Chunker.strip_ws (plainText text) = Chunker.strip_ws text).
Proof.
  unfold plainText.
  destruct (trim_inside (collapse_spaces (replace_tags text)))
    as ((before & after & Hin) & Hhead & Hlast).
  assert (Hstrip : Chunker.strip_ws (trim (collapse_spaces (replace_tags text)))
                   = Chunker.strip_ws (replace_tags text)).
  { unfold trim. rewrite strip_ws_rev, strip_ws_trimStart, strip_ws_rev.
    rewrite rev_involutive, strip_ws_trimStart.
    apply strip_ws_collapse. }
  split; [|split; [|split; [|split; [|split]]]].
  - intros c Hc. apply (collapse_from_spaces false (replace_tags text)).
    fold (collapse_spaces (replace_tags text)). rewrite Hin.
    apply in_or_app. right. apply in_or_app. now left.
  - intros l1 a b l2 E.
    apply (no_double_adjacent false (before ++ l1) a b (l2 ++ after)).
    rewrite <- (collapse_from_no_double false (replace_tags text)).
    f_equal. fold (collapse_spaces (replace_tags text)).
    rewrite Hin at 1. rewrite E. now rewrite <- !app_assoc.
  - exact Hhead.
  - exact Hlast.
  - exact Hstrip.
  - intros H. rewrite Hstrip. unfold replace_tags.
    now rewrite (replace_tags_no_tag text H).
Qed.

Lemma plainText_normalizes_white_space_witness :
  Chunker.strip_ws (plainText (str "  Call me   Ishmael. "))
  = Chunker.strip_ws (str "  Call me   Ishmael. ").
Proof.
  destruct (plainText_normalizes_white_space (str "  Call me   Ishmael. "))
    as (_ & _ & _ & _ & _ & H).
  apply H. vm_compute. reflexivity.
Defined.

(** ** Language codes *)


















(** X18: a job that [startTranslation] accepts has the name of the uploaded
    file, three non-empty form fields, and a format that is one of the four
    of the schema and that [extractText] and [convertToTargetFormat] know;
    whether [Translation.create] accepts it is then up to the service
    alone. *)
Theorem startTranslation_accepted_job (req : StartRequest) (job : Job) :
  startTranslation req = Accepted job ->
  file_originalname req = Some (fileName job) /\
  job_userId job = user_id req /\
  truthy (sourceLanguage job) = true /\
  truthy (targetLanguage job) = true /\
  truthy (service job) = true /\
  fileFormat job = skipn 1 (toLowerCase (extname (fileName job))) /\
  In (fileFormat job) fileFormat_enum /\
  format_of (fileFormat job) <> None /\
  valid_job job = bool_decide (In (service job) service_enum).
Proof.
  unfold startTranslation.
  destruct (file_originalname req) as [name|]; [|discriminate].
  destruct (body_sourceLanguage req) as [src|]; [|discriminate].
  destruct (body_targetLanguage req) as [tgt|]; [|discriminate].
  destruct (body_service req) as [svc|]; [|discriminate].
  destruct (truthy src) eqn:Hs; [|discriminate].
  destruct (truthy tgt) eqn:Ht; [|discriminate].
  destruct (truthy svc) eqn:Hv; [|discriminate].
  cbn [negb orb].
  destruct (bool_decide_reflect
              (In (skipn 1 (toLowerCase (extname name))) supportedFormats))
    as [Hin|]; [|discriminate].
  cbn [negb]. intros [= <-]. cbn [fileName job_userId sourceLanguage
                                   targetLanguage service fileFormat].
  repeat (split; [first [reflexivity | assumption]|]).
  split; [now apply format_of_supported|].
  unfold valid_job. cbn [fileFormat service].
  change fileFormat_enum with supportedFormats.
  now rewrite (bool_decide_eq_true_2 _ Hin).
Qed.

Lemma startTranslation_accepted_job_witness :
  In (fileFormat (mkJob (str "user-1") (str "en") (str "es") (str "Book.PDF")
                    (str "pdf") (str "deepl")))
    fileFormat_enum.
Proof.
  destruct (startTranslation_accepted_job
              (mkStartRequest (Some (str "Book.PDF")) (str "user-1")
                 (Some (str "en")) (Some (str "es")) (Some (str "deepl")))
              (mkJob (str "user-1") (str "en") (str "es") (str "Book.PDF")
                 (str "pdf") (str "deepl")))
    as (_ & _ & _ & _ & _ & _ & H & _).
  - vm_compute. reflexivity.
  - exact H.
Defined.







(** X22: [cancelTranslation] answers 200 exactly when the record exists,
    belongs to the user and is neither completed nor canceled; it then only
    sets the status to [canceled], and the same request made again is
    answered 400 and changes nothing.  With any other answer nothing is
    changed. *)
Theorem cancelTranslation_answers (user : jsstring) (w : World) :
  (snd (cancelTranslation user w) = 200%Z <->
   exists t, db w = Some t /\ userId t = user /\
             status t <> completed /\ status t <> canceled) /\
  (snd (cancelTranslation user w) <> 200%Z ->
   fst (cancelTranslation user w) = w) /\
  (snd (cancelTranslation user w) = 200%Z ->
   (exists t, db w = Some t /\
      db (fst (cancelTranslation user w))
      = Some (mkTranslation (userId t) canceled (progress t) (totalChunks t)
                (processedChunks t) (translatedFilePath t)
                (translatedFileName t) (errorMessage t) (completedAt t))) /\
   outputFiles (fst (cancelTranslation user w)) = outputFiles w /\
   submitted (fst (cancelTranslation user w)) = submitted w /\
   snd (cancelTranslation user (fst (cancelTranslation user w))) = 400%Z /\
   fst (cancelTranslation user (fst (cancelTranslation user w)))
   = fst (cancelTranslation user w)).
Proof.
  destruct (db w) as [t|] eqn:Et.
  2:{ assert (E : cancelTranslation user w = (w, 404%Z))
        by (unfold cancelTranslation; now rewrite Et).
      rewrite E. cbn [fst snd].
      split; [split; [discriminate|intros (t & H & _); discriminate]|].
      split; [reflexivity|discriminate]. }
  destruct (bool_decide (userId t = user)) eqn:Eu;
    [apply bool_decide_eq_true in Eu as Hu
    |apply bool_decide_eq_false in Eu as Hu].
  2:{ assert (E : cancelTranslation user w = (w, 403%Z))
        by (unfold cancelTranslation; now rewrite Et, Eu).
      rewrite E. cbn [fst snd].
      split; [split; [discriminate|]|split; [reflexivity|discriminate]].
      intros (t' & [= <-] & H & _). contradiction. }
  destruct (bool_decide (status t = completed)) eqn:Ec;
    [apply bool_decide_eq_true in Ec as Hc
    |apply bool_decide_eq_false in Ec as Hc].
  { assert (E : cancelTranslation user w = (w, 400%Z))
      by (unfold cancelTranslation; now rewrite Et, Eu, Ec).
    rewrite E. cbn [fst snd].
    split; [split; [discriminate|]|split; [reflexivity|discriminate]].
    intros (t' & [= <-] & _ & H & _). contradiction. }
  destruct (bool_decide (status t = canceled)) eqn:Ex;
    [apply bool_decide_eq_true in Ex as Hx
    |apply bool_decide_eq_false in Ex as Hx].
  { assert (E : cancelTranslation user w = (w, 400%Z))
      by (unfold cancelTranslation; now rewrite Et, Eu, Ec, Ex).
    rewrite E. cbn [fst snd].
    split; [split; [discriminate|]|split; [reflexivity|discriminate]].
    intros (t' & [= <-] & _ & _ & H). contradiction. }
  set (t' := mkTranslation (userId t) canceled (progress t) (totalChunks t)
               (processedChunks t) (translatedFilePath t)
               (translatedFileName t) (errorMessage t) (completedAt t)).
  assert (E : cancelTranslation user w
              = (mkWorld (Some t') (history w ++ [t']) (outputFiles w)
                   (submitted w), 200%Z))
    by (unfold cancelTranslation, persist; now rewrite Et, Eu, Ec, Ex).
  rewrite E. cbn [fst snd db outputFiles submitted].
  split; [|split].
  - split; [|reflexivity]. intros _. exists t. now repeat split.
  - intros H. now elim H.
  - intros _. split; [exists t; now split|].
    split; [reflexivity|]. split; [reflexivity|].
    unfold cancelTranslation. cbn [db]. subst t'. cbn [userId status].
    rewrite Eu. cbn. split; reflexivity.
Qed.

Lemma cancelTranslation_answers_witness :
  snd (cancelTranslation (str "user-1")
         (fst (cancelTranslation (str "user-1")
                 (snd (run (env_uppercase (str "Hi.")) job_txt [Tick; Tick])))))
  = 400%Z.
Proof.
  destruct (cancelTranslation_answers (str "user-1")
              (snd (run (env_uppercase (str "Hi.")) job_txt [Tick; Tick])))
    as (_ & _ & H).
  apply H. vm_compute. reflexivity.
Defined.

(** X23: when the Argos adapter's [translate] returns a text, that text is
    what it read from the output file, after it wrote the input text, ran
    the translation command once with the mapped language codes, and before
    it removed both temporary files; all that came before was
    provisioning. *)
Theorem argos_translate_returns_what_it_read
    (text sourceLanguage targetLanguage out : jsstring)
    (sys : argosService.System) :
  fst (argosService.translate text sourceLanguage targetLanguage sys [])
  = Ok out ->
  exists pre o1 o2 o4 o5,
    snd (argosService.translate text sourceLanguage targetLanguage sys [])
    = pre ++ translation_events text
               (argosService.mapLanguageCode sourceLanguage)
               (argosService.mapLanguageCode targetLanguage)
               o1 o2 out (Ok o4) (Ok o5) /\
    Forall (fun e => provisioning e = true) pre.
Proof.
  intros H.
  destruct (translate_of_body text sourceLanguage targetLanguage sys [])
    as [Htr Hout].
  rewrite Htr. apply Hout in H. clear Htr Hout.
  destruct (translate_body_cases text
              (argosService.mapLanguageCode sourceLanguage)
              (argosService.mapLanguageCode targetLanguage) sys)
    as (pre & Hpre & [(m & E)|E]); rewrite E in H |- *; [discriminate|].
  destruct (translation_steps_cases text
              (argosService.mapLanguageCode sourceLanguage)
              (argosService.mapLanguageCode targetLanguage) sys pre)
    as (r & ext & E' & [(Hthrow & _)|(o1 & o2 & out' & a4 & a5 & -> & Hcase)]);
    rewrite E' in H |- *; cbn [fst snd] in *.
  - rewrite H in Hthrow. discriminate.
  - destruct Hcase as [(H4 & H5 & ->)|(_ & Hthrow)].
    + injection H as ->. destruct a4 as [o4|]; [|discriminate].
      destruct a5 as [o5|]; [|discriminate].
      exists pre, o1, o2, o4, o5. now split.
    + rewrite H in Hthrow. discriminate.
Qed.

Lemma argos_translate_returns_what_it_read_witness :
  exists pre o1 o2 o4 o5,
    snd (argosService.translate (str "Hello world.") (str "en") (str "de")
           system_en_de [])
    = pre ++ translation_events (str "Hello world.")
               (argosService.mapLanguageCode (str "en"))
               (argosService.mapLanguageCode (str "de"))
               o1 o2 (str "Hallo Welt.") (Ok o4) (Ok o5) /\
    Forall (fun e => provisioning e = true) pre.
Proof.
  apply (argos_translate_returns_what_it_read (str "Hello world.") (str "en")
           (str "de") (str "Hallo Welt.") system_en_de).
  vm_compute. reflexivity.
Defined.

(** X24: when the Argos adapter's [translate] throws for any reason other
    than a failed removal, it has removed neither temporary file: the
    clean-up is not reached. *)
Theorem argos_translate_failure_skips_cleanup
    (text sourceLanguage targetLanguage : jsstring)
    (sys : argosService.System) :
  is_throw
    (fst (argosService.translate text sourceLanguage targetLanguage sys []))
  = true ->
  Forall (fun e => unlink_failed e = false)
    (snd (argosService.translate text sourceLanguage targetLanguage sys [])) ->
  Forall (fun e => is_unlink e = false)
    (snd (argosService.translate text sourceLanguage targetLanguage sys [])).
Proof.
  destruct (argosService.translate_run text sourceLanguage targetLanguage
              sys []) as [Htr Hth].
  rewrite Htr, Hth. clear Htr Hth.
  destruct (translate_body_cases text
              (argosService.mapLanguageCode sourceLanguage)
              (argosService.mapLanguageCode targetLanguage) sys)
    as (pre & Hpre & [(m & E)|E]); rewrite E.
  - intros _ _. now apply provisioning_no_unlink.
  - destruct (translation_steps_cases text
                (argosService.mapLanguageCode sourceLanguage)
                (argosService.mapLanguageCode targetLanguage) sys pre)
      as (r & ext & E' & [(_ & Hno)|(o1 & o2 & out & a4 & a5 & -> & Hcase)]);
      rewrite E'; cbn [fst snd]; intros Hthrow Hclean.
    + apply Forall_app. split; [now apply provisioning_no_unlink|exact Hno].
    + exfalso. apply Forall_app in Hclean as [_ Hclean].
      unfold translation_events in Hclean.
      inversion Hclean as [|? ? _ H1]; subst.
      inversion H1 as [|? ? _ H2]; subst.
      inversion H2 as [|? ? _ H3]; subst.
      inversion H3 as [|? ? H4 H5]; subst.
      inversion H5 as [|? ? H6 _]; subst.
      destruct Hcase as [(_ & _ & ->)|([Ha|Ha] & _)]; [discriminate| |].
      * destruct a4; [discriminate|]. discriminate.
      * destruct a5; [discriminate|]. discriminate.
Qed.

Lemma argos_translate_failure_skips_cleanup_witness :
  Forall (fun e => is_unlink e = false)
    (snd (argosService.translate (str "Hello world.") (str "en") (str "de")
            system_failing_command [])).
Proof.
  apply (argos_translate_failure_skips_cleanup (str "Hello world.") (str "en")
           (str "de") system_failing_command).
  - vm_compute. reflexivity.
  - vm_compute. repeat constructor.
Defined.

(** X25: when the probe for Argos always fails, [translate] throws 'Argos
    Translate not installed. Please install it first.' after two probes and
    one call of [downloadLanguagePair]: it lists no package, installs
    nothing, writes no file and runs no translation. *)
Theorem argos_translate_not_installed
    (text sourceLanguage targetLanguage : jsstring)
    (sys : argosService.System) :
  (forall tr,
      is_throw (sys tr (argosService.exec argosService.which_argos_translate))
      = true) ->
  fst (argosService.translate text sourceLanguage targetLanguage sys [])
  = Throw (str "Argos Translate not installed. Please install it first.") /\
  exists a a',
    is_throw a = true /\ is_throw a' = true /\
    snd (argosService.translate text sourceLanguage targetLanguage sys [])
    = [ argosService.Did
          (argosService.exec argosService.which_argos_translate) a;
        argosService.Called_downloadLanguagePair
          (argosService.mapLanguageCode sourceLanguage)
          (argosService.mapLanguageCode targetLanguage);
        argosService.Did
          (argosService.exec argosService.which_argos_translate) a' ].
Proof.
  intros Hno.
  unfold argosService.translate, argosService.try_catch, argosService.bind,
    argosService.isLanguagePairAvailable, argosService.downloadLanguagePair,
    argosService.try_catch, argosService.bind, argosService.note.
  rewrite !argosService.isInstalled_run. rewrite (Hno []). cbn.
  rewrite argosService.isInstalled_run. rewrite Hno. cbn.
  split; [reflexivity|].
  eexists _, _. split; [apply (Hno [])|]. split; [apply Hno|]. reflexivity.
Qed.

Lemma argos_translate_not_installed_witness :
  fst (argosService.translate (str "Hello world.") (str "en") (str "de")
         system_without_argos [])
  = Throw (str "Argos Translate not installed. Please install it first.").
Proof.
  apply (argos_translate_not_installed (str "Hello world.") (str "en")
           (str "de") system_without_argos).
  intros tr. reflexivity.
Defined.

(** X26: [extractText] and [convertToTargetFormat] choose the reader and the
    writer by the format without regard to case; they return only for one of
    the four formats, with what the reader or writer returns, and every
    error they throw, the one for an unknown format included, carries their
    prefix. *)
Theorem extractText_and_convertToTargetFormat_outcomes
    (reader : Format -> result jsstring)
    (writer : Format -> jsstring -> result unit)
    (format text : jsstring) :
  format_of (toUpperCase format) = format_of format /\
  format_of (toLowerCase format) = format_of format /\
  (forall extracted,
      extractText reader format = Ok extracted <->
      exists fmt, format_of format = Some fmt /\ reader fmt = Ok extracted) /\
  (convertToTargetFormat writer text format = Ok tt <->
   exists fmt, format_of format = Some fmt /\ writer fmt text = Ok tt) /\
  (forall message,
      extractText reader format = Throw message ->
      starts_with (str "Failed to extract text: ") message = true) /\
  (forall message,
      convertToTargetFormat writer text format = Throw message ->
      starts_with (str "Format conversion failed: ") message = true) /\
  (format_of format = None ->
   extractText reader format
   = Throw (str "Failed to extract text: "
            ++ str "Unsupported file format: " ++ format) /\
   convertToTargetFormat writer text format
   = Throw (str "Format conversion failed: "
            ++ str "Unsupported output format: " ++ format)).
Proof.
  unfold extractText, convertToTargetFormat, format_of.
  rewrite toLowerCase_toUpperCase, toLowerCase_idempotent.
  split; [reflexivity|]. split; [reflexivity|].
  fold (format_of format).
  destruct (format_of format) as [fmt|].
  - destruct (reader fmt) as [extracted|m] eqn:Er;
      destruct (writer fmt text) as [[]|m'] eqn:Ew;
      repeat split; try discriminate;
      try (intros [= <-]; now exists fmt);
      try (intros (fmt' & [= <-] & H); congruence);
      try (intros _; now exists fmt);
      try (intros message H;
           match type of H with
           | Throw ?x = Throw _ => replace message with x by congruence
           end; apply starts_with_app).
  - repeat split; try discriminate;
      try (intros (fmt' & H & _); discriminate);
      try (intros message H;
           match type of H with
           | Throw ?x = Throw _ => replace message with x by congruence
           end; apply starts_with_app).
Qed.

